(** * vad_transcribe: interval merging, checkpointed driver, SRT reassembly

    A shallow embedding of [vad_transcribe.py].  The numeric functions are
    given twice.  The modules [Merger], [Srt] and [Regions] run them on
    exact rationals ([Q]); they carry the properties of the algorithm that
    do not depend on rounding.  The module [Code] runs the same functions
    on any arithmetic, and [Arithmetic.binary64] is Python's: IEEE doubles
    with CPython's [//], [%] and [int()].  What is said about computed
    times and thresholds is stated on [Code]; [Code] on the arithmetic
    [Arithmetic.exact] is the rational model.  Python [str] values that
    carry transcript text are lists of Unicode code points; file names and
    file contents are byte strings. *)

From Stdlib Require Import QArith Qround Qminmax Lqa ZArith Lia List Permutation Sorted.
From Stdlib Require Import Ascii String DecimalString.
From Stdlib Require DecimalNat.
From Stdlib Require Floats.
From stdpp Require Import gmap strings list.
Import ListNotations.

(* ===================================================================== *)
(** * Interval merger *)
(* ===================================================================== *)

Module Merger.
Local Open Scope Q_scope.

(** A speech segment is the tuple [(start_ms, end_ms)]. *)
Abbreviation segment := (Q * Q)%type.

(** [a < b] on floats, as a boolean. *)
Definition Qltb (a b : Q) : bool :=
  match a ?= b with Lt => true | _ => false end.

(** Python's [max(a, b)]: the first argument wins unless the second is
    strictly greater.  [min(a, b)]: the first argument wins unless the
    second is strictly smaller. *)
Definition py_max (a b : Q) : Q := if Qltb a b then b else a.
Definition py_min (a b : Q) : Q := if Qltb b a then b else a.

(** [sorted(segments, key=lambda x: x[0])]: a stable ascending sort on the
    start time.  Stable insertion: an element is placed in front of the
    first element whose key is not smaller. *)
Fixpoint insert_by_start (x : segment) (l : list segment) : list segment :=
  match l with
  | [] => [x]
  | y :: l' =>
      if Qle_bool (fst x) (fst y) then x :: y :: l'
      else y :: insert_by_start x l'
  end.

Fixpoint sorted (segments : list segment) : list segment :=
  match segments with
  | [] => []
  | x :: l => insert_by_start x (sorted l)
  end.

(** The loop state of [merge_speech_segments_from_tuples]. *)
Record sweep_state : Type := SweepState {
  current_start : Q;
  current_end : Q;
  merged_segments : list segment
}.

(** One iteration of [for i in range(1, len(segments))].  The index is
    always in range; the default of [nth] is never read. *)
Definition merge_iteration (segments : list segment) (silence_threshold_ms : Q)
    (st : sweep_state) (i : nat) : sweep_state :=
  let '(next_start, next_end) := nth i segments (0, 0) in
  if Qltb (next_start - current_end st) silence_threshold_ms then
    SweepState (current_start st) (py_max (current_end st) next_end)
               (merged_segments st)
  else
    SweepState next_start next_end
               (merged_segments st ++ [(current_start st, current_end st)]).

Definition merge_speech_segments_from_tuples
    (segments : list segment) (silence_threshold_sec : Q) : list segment :=
  match segments with
  | [] => []
  | _ :: _ =>
      let segments := sorted segments in
      let silence_threshold_ms := silence_threshold_sec * 1000 in
      let '(current_start0, current_end0) := nth 0 segments (0, 0) in
      let st :=
        fold_left (merge_iteration segments silence_threshold_ms)
                  (seq 1 (length segments - 1))
                  (SweepState current_start0 current_end0 []) in
      merged_segments st ++ [(current_start st, current_end st)]
  end.

(** ** The reference sweep, following the specification's wording

    Sweep the sorted intervals with a running [(current_start,
    current_end)]; extend when [next_start - current_end <
    gap_threshold_ms], otherwise flush and restart; flush the last running
    interval at the end. *)
Fixpoint reference_sweep (gap_threshold_ms : Q) (cur_start cur_end : Q)
    (rest : list segment) : list segment :=
  match rest with
  | [] => [(cur_start, cur_end)]
  | (next_start, next_end) :: rest' =>
      if Qltb (next_start - cur_end) gap_threshold_ms
      then reference_sweep gap_threshold_ms cur_start (Qmax cur_end next_end) rest'
      else (cur_start, cur_end) :: reference_sweep gap_threshold_ms next_start next_end rest'
  end.

Definition reference_merge (intervals : list segment) (gap_threshold_ms : Q)
    : list segment :=
  match sorted intervals with
  | [] => []
  | (s, e) :: rest => reference_sweep gap_threshold_ms s e rest
  end.

(** ** Padding in [detect_continuous_speech_segments]

    [raw] is the detector's track list in seconds, [waveform_len] and
    [sample_rate] are what [sf.read] returned. *)
Definition pad_segment (speech_pad_ms : Z) (audio_length_ms : Q)
    (raw : Q * Q) : segment :=
  let start_ms := fst raw * 1000 in
  let end_ms := snd raw * 1000 in
  let start_ms := py_max 0 (start_ms - inject_Z speech_pad_ms) in
  let end_ms := py_min audio_length_ms (end_ms + inject_Z speech_pad_ms) in
  (start_ms, end_ms).

Definition detect_continuous_speech_segments
    (vad_result : list (Q * Q)) (waveform_len : N) (sample_rate : positive)
    (silence_threshold_sec : Q) (speech_pad_ms : Z) : list segment :=
  let audio_length := Z.of_N waveform_len # sample_rate in
  let audio_length_ms := audio_length * 1000 in
  let speech_segments := map (pad_segment speech_pad_ms audio_length_ms) vad_result in
  match speech_segments with
  | [] => []
  | _ :: _ => merge_speech_segments_from_tuples speech_segments silence_threshold_sec
  end.

(** The loop body, read on the element instead of on its index. *)
Definition step_on (t : Q) (st : sweep_state) (next : segment) : sweep_state :=
  if Qltb (fst next - current_end st) t then
    SweepState (current_start st) (py_max (current_end st) (snd next))
               (merged_segments st)
  else
    SweepState (fst next) (snd next)
               (merged_segments st ++ [(current_start st, current_end st)]).

(** The start times never decrease along [l], and none is below [s]. *)
Fixpoint ascending_from (s : Q) (l : list segment) : Prop :=
  match l with
  | [] => True
  | x :: l' => s <= fst x /\ ascending_from (fst x) l'
  end.

Definition starts_ascending (l : list segment) : Prop :=
  match l with
  | [] => True
  | x :: l' => ascending_from (fst x) l'
  end.

(** After a running interval [(s, e)], every next interval starts no
    earlier and is not mergeable with its predecessor at threshold [t]. *)
Fixpoint separated_from (t : Q) (s e : Q) (l : list segment) : Prop :=
  match l with
  | [] => True
  | x :: l' =>
      s <= fst x /\ Qltb (fst x - e) t = false /\
      separated_from t (fst x) (snd x) l'
  end.

(** Point coverage of a list of half-open intervals [[start, end)]. *)
Definition covers (l : list segment) (x : Q) : Prop :=
  exists s, In s l /\ fst s <= x /\ x < snd s.

(** Two intervals share a point. *)
Definition overlap (a b : segment) : Prop :=
  exists x, (fst a <= x /\ x < snd a) /\ (fst b <= x /\ x < snd b).


End Merger.

(* ===================================================================== *)
(** * Timeline reassembly and SRT output *)
(* ===================================================================== *)

Module Srt.
Local Open Scope Q_scope.

(** A Python [str] as the list of its code points. *)
Abbreviation pystr := (list N).

(** An ASCII literal as a [str]. *)
Definition str (s : string) : pystr := map N_of_ascii (list_ascii_of_string s).

Definition newline : pystr := [10%N].

(** [ch.isspace()], per code point. *)
Definition isspace (c : N) : bool :=
  ((9 <=? c) && (c <=? 13) || (28 <=? c) && (c <=? 32) ||
   (c =? 133) || (c =? 160) || (c =? 5760) ||
   (8192 <=? c) && (c <=? 8202) ||
   (c =? 8232) || (c =? 8233) || (c =? 8239) || (c =? 8287) || (c =? 12288))%N.

Fixpoint lstrip (s : pystr) : pystr :=
  match s with
  | [] => []
  | c :: s' => if isspace c then lstrip s' else s
  end.

Definition rstrip (s : pystr) : pystr := rev (lstrip (rev s)).

(** [s.strip()] *)
Definition strip (s : pystr) : pystr := rstrip (lstrip s).

(** Truth value of a [str]: non-empty. *)
Definition truthy (s : pystr) : bool :=
  match s with [] => false | _ :: _ => true end.

(** [str(n)] for an [int]: decimal digits, with a minus sign when negative. *)
Definition decimal (z : Z) : pystr :=
  if (z <? 0)%Z
  then 45%N :: str (NilZero.string_of_uint (N.to_uint (Z.to_N (- z))))
  else str (NilZero.string_of_uint (N.to_uint (Z.to_N z))).

(** The format specification [0{width}d]: sign first, then zeros up to the
    minimum width, then the digits; longer numbers are not cut. *)
Definition format_0d (width : nat) (z : Z) : pystr :=
  let digits := str (NilZero.string_of_uint (N.to_uint (Z.to_N (Z.abs z)))) in
  if (z <? 0)%Z
  then 45%N :: repeat 48%N (width - 1 - length digits) ++ digits
  else repeat 48%N (width - length digits) ++ digits.

(** [a // b] and [a % b] on floats, for a positive divisor. *)
Definition floordiv (a b : Q) : Q := inject_Z (Qfloor (a / b)).
Definition pymod (a b : Q) : Q := a - b * inject_Z (Qfloor (a / b)).

(** [int(x)]: truncation toward zero. *)
Definition py_int (x : Q) : Z :=
  if Qle_bool 0 x then Qfloor x else Qceiling x.

Definition milliseconds_to_srt_time (ms : Q) : pystr :=
  let hours := py_int (floordiv ms 3600000) in
  let ms := pymod ms 3600000 in
  let minutes := py_int (floordiv ms 60000) in
  let ms := pymod ms 60000 in
  let seconds := py_int (floordiv ms 1000) in
  let milliseconds := py_int (pymod ms 1000) in
  format_0d 2 hours ++ str ":" ++ format_0d 2 minutes ++ str ":" ++
  format_0d 2 seconds ++ str "," ++ format_0d 3 milliseconds.

(** One record of a Whisper result's ['segments'] list. *)
Record transcript_entry : Type := TranscriptEntry {
  start : Q;
  end_ : Q;
  text : pystr
}.

(** A Whisper result, read through [.get('segments', [])]. *)
Record whisper_result_t : Type := WhisperResult {
  segments : list transcript_entry
}.

(** One element of [all_segments]. *)
Record seg_info_t : Type := SegInfo {
  segment_index : nat;
  segment_start_ms : Q;
  segment_end_ms : Q;
  whisper_result : whisper_result_t
}.

(** The body of the inner loop of [generate_srt]; the state is
    [subtitle_index] and what has been written to [f] so far. *)
Definition write_entry (segment_start_ms : Q) (st : nat * pystr)
    (segment : transcript_entry) : nat * pystr :=
  let '(subtitle_index, f) := st in
  let start_ms := segment_start_ms + start segment * 1000 in
  let end_ms := segment_start_ms + end_ segment * 1000 in
  let text := strip (text segment) in
  if truthy text then
    let f := f ++ (decimal (Z.of_nat subtitle_index) ++ newline) in
    let f := f ++ (milliseconds_to_srt_time start_ms ++ str " --> " ++
                   milliseconds_to_srt_time end_ms ++ newline) in
    let f := f ++ (text ++ newline) in
    let f := f ++ newline in
    (S subtitle_index, f)
  else (subtitle_index, f).

Definition write_segment (st : nat * pystr) (seg_info : seg_info_t) : nat * pystr :=
  let segment_start_ms := segment_start_ms seg_info in
  let whisper_result := whisper_result seg_info in
  fold_left (write_entry segment_start_ms) (segments whisper_result) st.

(** [generate_srt]: the text written to the output file. *)
Definition generate_srt (all_segments : list seg_info_t) : pystr :=
  snd (fold_left write_segment all_segments (1%nat, [])).

(** ** The reassembler, following the specification's wording *)

Record cue : Type := Cue {
  cue_index : nat;
  cue_start_ms : Q;
  cue_end_ms : Q;
  cue_text : pystr
}.

(** An entry is kept when its text is not empty after stripping. *)
Definition kept (e : transcript_entry) : bool := truthy (strip (text e)).

(** The cues of [entries], numbered from [first]. *)
Fixpoint number_cues (first : nat) (seg_start_ms : Q)
    (entries : list transcript_entry) : list cue :=
  match entries with
  | [] => []
  | e :: rest =>
      if kept e then
        Cue first (seg_start_ms + start e * 1000) (seg_start_ms + end_ e * 1000)
            (strip (text e))
        :: number_cues (S first) seg_start_ms rest
      else number_cues first seg_start_ms rest
  end.

Fixpoint reassemble_from (first : nat) (results : list seg_info_t) : list cue :=
  match results with
  | [] => []
  | r :: rest =>
      let cs := number_cues first (segment_start_ms r) (segments (whisper_result r)) in
      cs ++ reassemble_from (first + length cs) rest
  end.

Definition reassemble (results : list seg_info_t) : list cue :=
  reassemble_from 1 results.

Definition render_cue (c : cue) : pystr :=
  decimal (Z.of_nat (cue_index c)) ++ newline ++
  milliseconds_to_srt_time (cue_start_ms c) ++ str " --> " ++
  milliseconds_to_srt_time (cue_end_ms c) ++ newline ++
  cue_text c ++ newline ++
  newline.

(** The same cue list in closed form: every kept entry, tagged with its
    segment's start, in list order, numbered consecutively. *)
Definition kept_entries (results : list seg_info_t) : list (Q * transcript_entry) :=
  List.filter (fun p => kept (snd p))
    (flat_map (fun r => map (pair (segment_start_ms r)) (segments (whisper_result r)))
              results).

Definition cue_of (index : nat) (p : Q * transcript_entry) : cue :=
  Cue index (fst p + start (snd p) * 1000) (fst p + end_ (snd p) * 1000)
      (strip (text (snd p))).

Fixpoint number (first : nat) (l : list (Q * transcript_entry)) : list cue :=
  match l with
  | [] => []
  | p :: l' => cue_of first p :: number (S first) l'
  end.

(** The segment has at least one entry that gives a cue. *)
Definition has_kept (r : seg_info_t) : bool :=
  existsb kept (segments (whisper_result r)).

(** Code point of the decimal digit [d]. *)
Definition digit (d : Z) : N := (48 + Z.to_N d)%N.

End Srt.

(* ===================================================================== *)
(** * Checkpoint store and segment pipeline driver *)
(* ===================================================================== *)

Module Driver.
Import Srt.
Local Open Scope Q_scope.
Local Open Scope string_scope.

(** ** Paths *)

Fixpoint all_chars (P : ascii -> bool) (s : string) : bool :=
  match s with
  | EmptyString => true
  | String c s' => P c && all_chars P s'
  end.

Definition is_slash (c : ascii) : bool := Ascii.eqb c "/".
Definition is_dot (c : ascii) : bool := Ascii.eqb c ".".
Definition is_digit (c : ascii) : bool :=
  ((48 <=? nat_of_ascii c) && (nat_of_ascii c <=? 57))%nat.

Fixpoint has_slash (s : string) : bool :=
  match s with
  | EmptyString => false
  | String c s' => is_slash c || has_slash s'
  end.

Fixpoint ends_with_slash (s : string) : bool :=
  match s with
  | EmptyString => false
  | String c EmptyString => is_slash c
  | String _ s' => ends_with_slash s'
  end.

(** [os.path.join(a, b)] on POSIX, two components. *)
Definition path_join (a b : string) : string :=
  if String.prefix "/" b then b
  else if (String.length a =? 0)%nat || ends_with_slash a then a +:+ b
  else a +:+ "/" +:+ b.

(** [os.path.basename(p)]: what follows the last slash. *)
Fixpoint basename (p : string) : string :=
  match p with
  | EmptyString => EmptyString
  | String c rest =>
      if has_slash rest then basename rest
      else if is_slash c then rest else p
  end.

(** [s.replace(old, new)] for a non-empty [old]: occurrences are replaced
    from the left, without overlap.  [skip] counts the characters of a
    matched occurrence that are still to be dropped. *)
Fixpoint replace_from (skip : nat) (old new s : string) : string :=
  match s with
  | EmptyString => EmptyString
  | String c s' =>
      match skip with
      | S k => replace_from k old new s'
      | O =>
          if String.prefix old s
          then new +:+ replace_from (String.length old - 1) old new s'
          else String c (replace_from 0 old new s')
      end
  end.

Definition str_replace (old new s : string) : string := replace_from 0 old new s.

Fixpoint zeros (n : nat) : string :=
  match n with
  | O => EmptyString
  | S k => String "0" (zeros k)
  end.

(** The format specification [04d] on a non-negative index. *)
Definition format_04d (i : nat) : string :=
  let digits := NilZero.string_of_uint (Nat.to_uint i) in
  zeros (4 - String.length digits) +:+ digits.

(** Neither a slash nor a dot. *)
Definition plain (c : ascii) : bool := negb (is_slash c) && negb (is_dot c).

(** The stem of a segment's file names. *)
Definition stem (i : nat) : string := "segment_" +:+ format_04d i.

Definition segment_json (output_dir : string) (segment_index : nat) : string :=
  path_join output_dir ("segment_" +:+ format_04d segment_index +:+ ".json").

Definition segment_wav (temp_dir : string) (i : nat) : string :=
  path_join temp_dir ("segment_" +:+ format_04d i +:+ ".wav").

(** The file [transcribe_with_whisper] reads the engine's output from. *)
Definition whisper_json_file (audio_file output_dir : string) : string :=
  let audio_basename := str_replace ".wav" "" (basename audio_file) in
  path_join output_dir (audio_basename +:+ ".json").

(** [language.lower()], ASCII letters. *)
Definition ascii_lower (c : ascii) : ascii :=
  let n := nat_of_ascii c in
  if ((65 <=? n) && (n <=? 90))%nat then ascii_of_nat (n + 32) else c.

Fixpoint lower (s : string) : string :=
  match s with
  | EmptyString => EmptyString
  | String c s' => String (ascii_lower c) (lower s')
  end.

(** ** The world outside the script *)

(** What the script asks of its surroundings, in call order. *)
Inductive event : Type :=
| Cut (audio_file : string) (start_sec duration_sec : Q) (output_file : string)
| Whisper (audio_file : string) (language : option string) (model output_dir : string)
| Sleep (seconds : Z).

(** The file system (path to content) and the calls made so far. *)
Record world : Type := World {
  fs : gmap string string;
  events : list event
}.

(** A parsed JSON document: a dict read as a Whisper result, or any other
    value, on which [.get] raises. *)
Inductive json : Type :=
| JDict (r : whisper_result_t)
| JOther.

(** The collaborators.  The two commands return whether the process
    exited with status 0 and the file system it left; they may depend on
    everything that happened before.  [json_load] is [None] when
    [json.load] raises; it raises on an empty document. *)
Class Collaborators : Type := {
  run_ffmpeg_cut : world -> string -> Q -> Q -> string -> bool * gmap string string;
  run_whisper : world -> string -> option string -> string -> string ->
                bool * gmap string string;
  json_load : string -> option json;
  json_dump : json -> string;
  json_load_empty : json_load "" = None
}.

Definition empty_result : whisper_result_t := WhisperResult [].

Record driver_state : Type := DriverState {
  all_segments : list seg_info_t;
  completed_count : nat;
  skipped_count : nat;
  failed_count : nat
}.

Definition initial_state : driver_state := DriverState [] 0 0 0.

(** The default of [max_retries]. *)
Definition default_max_retries : nat := 3.

Section WithCollaborators.
Context {env : Collaborators}.

(** ** Checkpoint store *)

Definition check_segment_completed (segment_index : nat) (output_dir : string)
    (files : gmap string string) : bool :=
  let json_file := segment_json output_dir segment_index in
  match files !! json_file with
  | Some content => (0 <? String.length content)%nat
  | None => false
  end.

Definition load_existing_result (segment_index : nat) (output_dir : string)
    (files : gmap string string) : whisper_result_t :=
  let json_file := segment_json output_dir segment_index in
  match files !! json_file with
  | Some content =>
      match json_load content with
      | Some (JDict result) => result
      | Some JOther => empty_result
      | None => empty_result
      end
  | None => empty_result
  end.

(** ** Slicing and transcription *)

(** [cut_audio_segment]; the boolean is false when [subprocess.run] raises. *)
Definition cut_audio_segment (audio_file : string) (start_ms end_ms : Q)
    (output_file : string) (w : world) : world * bool :=
  let start_sec := start_ms / 1000 in
  let duration_sec := (end_ms - start_ms) / 1000 in
  let '(ok, files) := run_ffmpeg_cut w audio_file start_sec duration_sec output_file in
  (World files (events w ++ [Cut audio_file start_sec duration_sec output_file])%list, ok).

(** The [--language] argument: present when [language] is truthy. *)
Definition language_argument (language : option string) : option string :=
  match language with
  | Some l => if (String.length l =? 0)%nat then None else Some (lower l)
  | None => None
  end.

Definition whisper_event (audio_file : string) (language : option string)
    (model output_dir : string) : event :=
  Whisper audio_file (language_argument language) model output_dir.

(** The [try] block of one attempt: [Some] is the returned result, [None]
    stands for any exception. *)
Definition whisper_attempt (audio_file : string) (language : option string)
    (model output_dir : string) (w : world) : world * option whisper_result_t :=
  let ev := whisper_event audio_file language model output_dir in
  let '(ok, files) :=
    run_whisper w audio_file (language_argument language) model output_dir in
  let log := (events w ++ [ev])%list in
  if ok then
    let json_file := whisper_json_file audio_file output_dir in
    match files !! json_file with
    | None => (World files log, None)
    | Some content =>
        match json_load content with
        | None => (World files log, None)
        | Some transcription_result =>
            let files := <[json_file := json_dump transcription_result]> files in
            match transcription_result with
            | JDict result => (World files log, Some result)
            | JOther => (World files log, None)
            end
        end
    end
  else (World files log, None).

(** The [except] block: sleep unless this was the last attempt. *)
Definition after_failure (attempt max_retries : nat) (w : world) : world :=
  if (attempt <? max_retries - 1)%nat
  then World (fs w) (events w ++ [Sleep 5])%list
  else w.

Fixpoint transcribe_attempts (attempts : list nat) (max_retries : nat)
    (audio_file : string) (language : option string) (model output_dir : string)
    (w : world) : world * whisper_result_t :=
  match attempts with
  | [] => (w, empty_result)
  | attempt :: rest =>
      match whisper_attempt audio_file language model output_dir w with
      | (w', Some transcription_result) => (w', transcription_result)
      | (w', None) =>
          transcribe_attempts rest max_retries audio_file language model output_dir
            (after_failure attempt max_retries w')
      end
  end.

Definition transcribe_with_whisper (audio_file : string) (language : option string)
    (model output_dir : string) (max_retries : nat) (w : world)
    : world * whisper_result_t :=
  transcribe_attempts (seq 0 max_retries) max_retries
    audio_file language model output_dir w.

(** ** The driver loop of [main] *)

Definition record_result (st : driver_state) (i : nat) (start_ms end_ms : Q)
    (result : whisper_result_t) (completed skipped failed : nat) : driver_state :=
  DriverState (all_segments st ++ [SegInfo i start_ms end_ms result])%list
              completed skipped failed.

(** One iteration of [for i, (start_ms, end_ms) in enumerate(...)];
    [None] stands for an exception that leaves the loop. *)
Definition process_segment (audio_file temp_dir : string) (language : option string)
    (model : string) (i : nat) (start_ms end_ms : Q)
    (st : driver_state) (w : world) : world * option driver_state :=
  if check_segment_completed i temp_dir (fs w) then
    let whisper_result := load_existing_result i temp_dir (fs w) in
    (w, Some (record_result st i start_ms end_ms whisper_result
                (completed_count st) (S (skipped_count st)) (failed_count st)))
  else
    let segment_file := segment_wav temp_dir i in
    let '(w1, cut_ok) :=
      match fs w !! segment_file with
      | None => cut_audio_segment audio_file start_ms end_ms segment_file w
      | Some _ => (w, true)
      end in
    if cut_ok then
      let '(w2, whisper_result) :=
        transcribe_with_whisper segment_file language model temp_dir
          default_max_retries w1 in
      match segments whisper_result with
      | _ :: _ =>
          (w2, Some (record_result st i start_ms end_ms whisper_result
                       (S (completed_count st)) (skipped_count st) (failed_count st)))
      | [] =>
          (w2, Some (record_result st i start_ms end_ms whisper_result
                       (completed_count st) (skipped_count st) (S (failed_count st))))
      end
    else (w1, None).

Fixpoint main_loop (audio_file temp_dir : string) (language : option string)
    (model : string) (i : nat) (continuous_segments : list (Q * Q))
    (st : driver_state) (w : world) : world * option driver_state :=
  match continuous_segments with
  | [] => (w, Some st)
  | (start_ms, end_ms) :: rest =>
      match process_segment audio_file temp_dir language model i start_ms end_ms st w with
      | (w', Some st') => main_loop audio_file temp_dir language model (S i) rest st' w'
      | (w', None) => (w', None)
      end
  end.

(** ** Vocabulary of the statements *)

(** The state after segment [i] was transcribed with [result]. *)
Definition tallied (st : driver_state) (i : nat) (start_ms end_ms : Q)
    (result : whisper_result_t) : driver_state :=
  match segments result with
  | _ :: _ =>
      record_result st i start_ms end_ms result
        (S (completed_count st)) (skipped_count st) (failed_count st)
  | [] =>
      record_result st i start_ms end_ms result
        (completed_count st) (skipped_count st) (S (failed_count st))
  end.


(** The calls of [n] attempts that all fail: the engine, then a sleep of
    5 seconds, ..., the engine. *)
Fixpoint failed_attempt_events (ev : event) (n : nat) : list event :=
  match n with
  | O => []
  | S O => [ev]
  | S k => ev :: Sleep 5 :: failed_attempt_events ev k
  end.

Definition engine_calls (log : list event) : nat :=
  length (List.filter (fun e => match e with Whisper _ _ _ _ => true | _ => false end) log).

Definition sleeps (log : list event) : list Z :=
  flat_map (fun e => match e with Sleep seconds => [seconds] | _ => [] end) log.

(** Every attempt of the retry loop started in [w] fails. *)
Fixpoint fails_throughout (attempts : list nat) (max_retries : nat)
    (audio_file : string) (language : option string) (model output_dir : string)
    (w : world) : Prop :=
  match attempts with
  | [] => True
  | attempt :: rest =>
      snd (whisper_attempt audio_file language model output_dir w) = None /\
      fails_throughout rest max_retries audio_file language model output_dir
        (after_failure attempt max_retries
           (fst (whisper_attempt audio_file language model output_dir w)))
  end.

(** The world after one engine run that the script only logs. *)
Definition engine_run (audio_file : string) (language : option string)
    (model output_dir : string) (w : world) : world :=
  World (snd (run_whisper w audio_file (language_argument language) model output_dir))
        (events w ++ [whisper_event audio_file language model output_dir])%list.

(** The world after the attempts when the script itself writes nothing. *)
Fixpoint engine_runs (attempts : list nat) (max_retries : nat)
    (audio_file : string) (language : option string) (model output_dir : string)
    (w : world) : world :=
  match attempts with
  | [] => w
  | attempt :: rest =>
      engine_runs rest max_retries audio_file language model output_dir
        (after_failure attempt max_retries
           (engine_run audio_file language model output_dir w))
  end.

(** No engine run of the retry loop for segment [i] leaves a non-empty
    result file for [i]. *)
Fixpoint leaves_unmarked (i : nat) (attempts : list nat) (max_retries : nat)
    (audio_file : string) (language : option string) (model output_dir : string)
    (w : world) : Prop :=
  match attempts with
  | [] => True
  | attempt :: rest =>
      check_segment_completed i output_dir
        (fs (engine_run audio_file language model output_dir w)) = false /\
      leaves_unmarked i rest max_retries audio_file language model output_dir
        (after_failure attempt max_retries
           (engine_run audio_file language model output_dir w))
  end.

(** The slice for [i] is on disk, or the slicer exits with status 0. *)
Definition slice_available (audio_file temp_dir : string) (i : nat)
    (start_ms end_ms : Q) (w : world) : Prop :=
  match fs w !! segment_wav temp_dir i with
  | Some _ => True
  | None => snd (cut_audio_segment audio_file start_ms end_ms (segment_wav temp_dir i) w)
            = true
  end.

(** The world in which the transcription of [i] starts, and the slicer
    call made on the way. *)
Definition after_slicing (audio_file temp_dir : string) (i : nat)
    (start_ms end_ms : Q) (w : world) : world :=
  match fs w !! segment_wav temp_dir i with
  | Some _ => w
  | None => fst (cut_audio_segment audio_file start_ms end_ms (segment_wav temp_dir i) w)
  end.

Definition slicing_events (audio_file temp_dir : string) (i : nat)
    (start_ms end_ms : Q) (w : world) : list event :=
  match fs w !! segment_wav temp_dir i with
  | Some _ => []
  | None => [Cut audio_file (start_ms / 1000) ((end_ms - start_ms) / 1000)
                 (segment_wav temp_dir i)]
  end.

End WithCollaborators.

(** ** Stand-ins for the collaborators *)

(** A reader that knows two documents. *)
Definition two_documents_load (content : string) : option json :=
  if String.eqb content "{}" then Some (JDict empty_result)
  else if String.eqb content "[]" then Some JOther
  else None.

Definition two_documents_dump (j : json) : string :=
  match j with
  | JDict _ => "{}"
  | JOther => "[]"
  end.

(** A slicer that writes its output file. *)
Definition slicer_writes (w : world) (audio_file : string) (start_sec duration_sec : Q)
    (output_file : string) : bool * gmap string string :=
  (true, <[output_file := "RIFF"]> (fs w)).

(** An engine that exits with an error and writes nothing. *)
Definition engine_exits_with_error (w : world) (audio_file : string)
    (language : option string) (model output_dir : string)
    : bool * gmap string string :=
  (false, fs w).

(** An engine that exits normally but leaves an unreadable, non-empty
    output file. *)
Definition engine_writes_garbage (w : world) (audio_file : string)
    (language : option string) (model output_dir : string)
    : bool * gmap string string :=
  (true, <[whisper_json_file audio_file output_dir := "garbage"]> (fs w)).

Definition failing_collaborators : Collaborators :=
  Build_Collaborators slicer_writes engine_exits_with_error
    two_documents_load two_documents_dump eq_refl.

Definition garbage_collaborators : Collaborators :=
  Build_Collaborators slicer_writes engine_writes_garbage
    two_documents_load two_documents_dump eq_refl.

Definition empty_world : world := World ∅ [].

Definition run_dir : string := "/work/temp_continuous".

(** A run directory in which segment 0 has a stored result. *)
Definition resumed_world : world := World {[ segment_json run_dir 0 := "{}" ]} [].

(** A run over the single interval from 0 to 1000 ms. *)
Definition run (env : Collaborators) (w : world) : world * option driver_state :=
  main_loop (path_join run_dir "extracted_audio.wav") run_dir None "base"
            0 [(0, 1000)] initial_state w.

(** A later run: the files are as they were left, the log starts anew. *)
Definition rerun (env : Collaborators) (w : world) : world * option driver_state :=
  run env (World (fs w) []).

(** A reader and writer that know one transcript besides the two
    documents above. *)
Definition hi_result : whisper_result_t :=
  WhisperResult [TranscriptEntry 0 1 (str "hi")].

Definition three_documents_load (content : string) : option json :=
  if String.eqb content "{hi}" then Some (JDict hi_result)
  else two_documents_load content.

Definition three_documents_dump (j : json) : string :=
  match j with
  | JDict (WhisperResult (_ :: _)) => "{hi}"
  | JDict (WhisperResult []) => "{}"
  | JOther => "[]"
  end.

(** An engine that writes a transcript and exits normally. *)
Definition engine_writes_transcript (w : world) (audio_file : string)
    (language : option string) (model output_dir : string)
    : bool * gmap string string :=
  (true, <[whisper_json_file audio_file output_dir := "{hi}"]> (fs w)).

(** A slicer that exits with an error and writes nothing. *)
Definition slicer_fails (w : world) (audio_file : string) (start_sec duration_sec : Q)
    (output_file : string) : bool * gmap string string :=
  (false, fs w).

Definition working_collaborators : Collaborators :=
  Build_Collaborators slicer_writes engine_writes_transcript
    three_documents_load three_documents_dump eq_refl.

Definition no_slicer_collaborators : Collaborators :=
  Build_Collaborators slicer_fails engine_writes_transcript
    three_documents_load three_documents_dump eq_refl.

(** What identifies a recorded result: index, start and end. *)
Definition result_key (r : seg_info_t) : nat * Q * Q :=
  (segment_index r, segment_start_ms r, segment_end_ms r).

Definition total_count (st : driver_state) : nat :=
  (completed_count st + skipped_count st + failed_count st)%nat.

(** The last character of a string. *)
Fixpoint last_char (s : string) : option ascii :=
  match s with
  | EmptyString => None
  | String c EmptyString => Some c
  | String _ s' => last_char s'
  end.

End Driver.

(* ===================================================================== *)
(** * The cache of detected segments *)
(* ===================================================================== *)

Module Cache.
Import Merger.
Local Open Scope Q_scope.

(** The JSON reader and writer for the segment list.  [segments_load] is
    [None] when [json.load] or the conversion to tuples raises. *)
Class SegmentCodec : Type := {
  segments_load : string -> option (list segment);
  segments_dump : list segment -> string
}.

(** The detector with [sf.read]: the tracks in seconds, the number of
    samples and the sample rate, or [None] when it raises. *)
Class Detector : Type := {
  run_vad : gmap string string -> string -> option (list (Q * Q) * N * positive)
}.

Definition cache_file (temp_dir : string) : string :=
  Driver.path_join temp_dir "segments_cache.json".

Section WithCodec.
Context {codec : SegmentCodec} {detector : Detector}.

Definition save_segments_cache (temp_dir : string) (segments : list segment)
    (files : gmap string string) : gmap string string :=
  <[cache_file temp_dir := segments_dump segments]> files.

Definition load_segments_cache (temp_dir : string) (files : gmap string string)
    : option (list segment) :=
  match files !! cache_file temp_dir with
  | Some content => segments_load content
  | None => None
  end.

(** How step 2 of [main] ended. *)
Inductive acquired : Type :=
| FromCache (continuous_segments : list segment)
| Detected (continuous_segments : list segment) (files : gmap string string)
| DetectorRaised.

(** Step 2 of [main]: the cache unless [--force-redetect], otherwise (or
    when the cache gives [None]) detection followed by saving. *)
Definition acquire_segments (force_redetect : bool) (temp_dir audio_file : string)
    (silence_threshold : Q) (speech_pad : Z) (files : gmap string string) : acquired :=
  let continuous_segments :=
    if force_redetect then None else load_segments_cache temp_dir files in
  match continuous_segments with
  | Some continuous_segments => FromCache continuous_segments
  | None =>
      match run_vad files audio_file with
      | None => DetectorRaised
      | Some (vad_result, waveform_len, sample_rate) =>
          let continuous_segments :=
            detect_continuous_speech_segments vad_result waveform_len sample_rate
              silence_threshold speech_pad in
          Detected continuous_segments
                   (save_segments_cache temp_dir continuous_segments files)
      end
  end.

End WithCodec.

(** Stand-ins: a codec that knows the empty list and one list, and a
    detector that reports one track. *)
Definition one_list : list segment := [(700, 2300)].

Definition small_codec : SegmentCodec :=
  Build_SegmentCodec
    (fun content => if String.eqb content "[]" then Some []
                    else if String.eqb content "[[700, 2300]]" then Some one_list
                    else None)
    (fun segments => match segments with [] => "[]" | _ :: _ => "[[700, 2300]]" end)%string.

Definition one_track_detector : Detector :=
  Build_Detector (fun _ _ => Some ([(1, 2)], 160000%N, 16000%positive)).

End Cache.

(* ===================================================================== *)
(** * Silence regions *)
(* ===================================================================== *)

Module Regions.
Import Merger.
Local Open Scope Q_scope.

(** One iteration of [for i in range(len(speech_segments) - 1)] in
    [get_silence_regions]; both indices are in range. *)
Definition silence_iteration (speech_segments : list segment)
    (silence_regions : list segment) (i : nat) : list segment :=
  let silence_start := snd (nth i speech_segments (0, 0)) in
  let silence_end := fst (nth (i + 1) speech_segments (0, 0)) in
  if Qltb silence_start silence_end
  then silence_regions ++ [(silence_start, silence_end)]
  else silence_regions.

Definition get_silence_regions (speech_segments : list segment)
    (audio_length_ms : Q) : list segment :=
  match speech_segments with
  | [] => [(0, audio_length_ms)]
  | _ :: _ =>
      let silence_regions := [] in
      let first := nth 0 speech_segments (0, 0) in
      let silence_regions :=
        if Qltb 0 (fst first) then silence_regions ++ [(0, fst first)]
        else silence_regions in
      let silence_regions :=
        fold_left (silence_iteration speech_segments)
                  (seq 0 (length speech_segments - 1)) silence_regions in
      let final := nth (length speech_segments - 1) speech_segments (0, 0) in
      if Qltb (snd final) audio_length_ms
      then silence_regions ++ [(snd final, audio_length_ms)]
      else silence_regions
  end.

(** The regions between consecutive segments, by recursion on the list. *)
Fixpoint gaps (l : list segment) : list segment :=
  match l with
  | [] => []
  | a :: l' =>
      match l' with
      | [] => []
      | b :: _ =>
          (if Qltb (snd a) (fst b) then [(snd a, fst b)] else []) ++ gaps l'
      end
  end.

(** Every segment ends no earlier than it starts, and no later than the
    next one starts. *)
Fixpoint ordered_disjoint (l : list segment) : Prop :=
  match l with
  | [] => True
  | a :: l' =>
      fst a <= snd a /\
      match l' with [] => True | b :: _ => snd a <= fst b end /\
      ordered_disjoint l'
  end.

End Regions.

(* ===================================================================== *)
(** * The code over its arithmetic *)
(* ===================================================================== *)

(** The numeric operations the script uses, as an interface.  Python runs
    them on binary64 floats, where every operation rounds; the modules
    [Merger] and [Srt] above run them on exact rationals, which is enough
    for the properties that do not depend on rounding.  [of_int] is the
    conversion of an [int] operand, [n_floordiv], [n_mod] and [n_int] are
    [//], [%] and [int()]. *)
Module Arithmetic.

Class Arith : Type := {
  num : Type;
  of_int : Z -> num;
  n_add : num -> num -> num;
  n_sub : num -> num -> num;
  n_mul : num -> num -> num;
  n_div : num -> num -> num;
  n_lt : num -> num -> bool;
  n_floordiv : num -> num -> num;
  n_mod : num -> num -> num;
  n_int : num -> Z
}.

(** [<] never holds in both directions. *)
Class Ordered (A : Arith) : Prop := {
  n_lt_asym : forall a b : num, n_lt a b = true -> n_lt b a = false
}.

(** Exact rational arithmetic. *)
Definition exact : Arith :=
  Build_Arith Q inject_Z Qplus Qminus Qmult Qdiv Merger.Qltb
              Srt.floordiv Srt.pymod Srt.py_int.

(** ** binary64, as CPython computes on it *)
Module Binary64.
Import SpecFloat FloatOps PrimFloat.

(** [float(z)]: the nearest double. *)
Definition of_Z (z : Z) : float := SF2Prim (binary_normalize prec emax z 0 false).

(** C's [fmod]: the exact remainder of the magnitudes, with the sign of
    the dividend. *)
Definition fmod (x y : float) : float :=
  match Prim2SF x, Prim2SF y with
  | S754_finite sx mx ex, S754_finite sy my ey =>
      let e := Z.min ex ey in
      let X := (Zpos mx * 2 ^ (ex - e))%Z in
      let Y := (Zpos my * 2 ^ (ey - e))%Z in
      let R := (X mod Y)%Z in
      SF2Prim (binary_normalize prec emax (if sx then - R else R) e sx)
  | S754_zero _, S754_finite _ _ _ => x
  | S754_zero _, S754_infinity _ => x
  | S754_finite _ _ _, S754_infinity _ => x
  | _, _ => nan
  end.

(** The C test [if (x)]. *)
Definition nonzero (x : float) : bool := negb (x =? 0)%float.

(** [copysign(0.0, w)] *)
Definition copysign_zero (w : float) : float :=
  match Prim2SF w with
  | S754_zero s | S754_infinity s | S754_finite s _ _ => if s then neg_zero else zero
  | S754_nan => zero
  end.

(** C's [floor]. *)
Definition floor (x : float) : float :=
  match Prim2SF x with
  | S754_finite s m e =>
      if (0 <=? e)%Z then x
      else SF2Prim (binary_normalize prec emax
                      ((if s then Zneg m else Zpos m) / 2 ^ (- e))%Z 0 s)
  | _ => x
  end.

(** [float_rem] of [floatobject.c]: [vx % wx] for a non-zero [wx]. *)
Definition rem (vx wx : float) : float :=
  let md := fmod vx wx in
  if nonzero md then
    if xorb (wx <? 0)%float (md <? 0)%float then (md + wx)%float else md
  else copysign_zero wx.

(** [float_floor_div] of [floatobject.c]: [vx // wx] for a non-zero [wx]. *)
Definition floordiv (vx wx : float) : float :=
  let md := fmod vx wx in
  let div := ((vx - md) / wx)%float in
  let div := if nonzero md && xorb (wx <? 0)%float (md <? 0)%float
             then (div - 1)%float else div in
  if nonzero div then
    let floordiv := floor div in
    if (0.5 <? div - floordiv)%float then (floordiv + 1)%float else floordiv
  else copysign_zero (vx / wx)%float.

(** [int(x)] for a finite [x]: truncation toward zero.  (On infinities
    and NaN [int] raises; no time of the script is one.) *)
Definition to_Z (x : float) : Z :=
  match Prim2SF x with
  | S754_finite s m e =>
      let a := if (0 <=? e)%Z then (Zpos m * 2 ^ e)%Z else (Zpos m / 2 ^ (- e))%Z in
      if s then (- a)%Z else a
  | _ => 0%Z
  end.

End Binary64.

Definition binary64 : Arith :=
  Build_Arith PrimFloat.float Binary64.of_Z PrimFloat.add PrimFloat.sub PrimFloat.mul
              PrimFloat.div PrimFloat.ltb Binary64.floordiv Binary64.rem Binary64.to_Z.

End Arithmetic.

(** The functions of the script, on any arithmetic. *)
Module Code.
Import Arithmetic Srt.

Section WithArith.
Context {A : Arith}.

Abbreviation segment := (num * num)%type.

(** Python's [max(a, b)] and [min(a, b)]. *)
Definition py_max (a b : num) : num := if n_lt a b then b else a.
Definition py_min (a b : num) : num := if n_lt b a then b else a.

(** [sorted(segments, key=lambda x: x[0])]: stable insertion, an element
    goes in front of the first element whose key is not smaller.  Python
    sorts with [<] alone; on keys that [<] orders totally (the times of
    the script: no NaN) every stable sort returns this list. *)
Fixpoint insert_by_start (x : segment) (l : list segment) : list segment :=
  match l with
  | [] => [x]
  | y :: l' =>
      if n_lt (fst y) (fst x) then y :: insert_by_start x l'
      else x :: y :: l'
  end.

Fixpoint sorted (segments : list segment) : list segment :=
  match segments with
  | [] => []
  | x :: l => insert_by_start x (sorted l)
  end.

Record sweep_state : Type := SweepState {
  current_start : num;
  current_end : num;
  merged_segments : list segment
}.

(** One iteration of [for i in range(1, len(segments))]. *)
Definition merge_iteration (segments : list segment) (silence_threshold_ms : num)
    (st : sweep_state) (i : nat) : sweep_state :=
  let '(next_start, next_end) := nth i segments (of_int 0, of_int 0) in
  if n_lt (n_sub next_start (current_end st)) silence_threshold_ms then
    SweepState (current_start st) (py_max (current_end st) next_end)
               (merged_segments st)
  else
    SweepState next_start next_end
               (merged_segments st ++ [(current_start st, current_end st)]).

Definition merge_speech_segments_from_tuples
    (segments : list segment) (silence_threshold_sec : num) : list segment :=
  match segments with
  | [] => []
  | _ :: _ =>
      let segments := sorted segments in
      let silence_threshold_ms := n_mul silence_threshold_sec (of_int 1000) in
      let '(current_start0, current_end0) := nth 0 segments (of_int 0, of_int 0) in
      let st :=
        fold_left (merge_iteration segments silence_threshold_ms)
                  (seq 1 (length segments - 1))
                  (SweepState current_start0 current_end0 []) in
      merged_segments st ++ [(current_start st, current_end st)]
  end.

(** The reference sweep of the specification: extend the running interval
    when [next_start - current_end < gap_threshold_ms], otherwise flush it
    and restart; flush the last one. *)
Fixpoint reference_sweep (gap_threshold_ms : num) (cur_start cur_end : num)
    (rest : list segment) : list segment :=
  match rest with
  | [] => [(cur_start, cur_end)]
  | (next_start, next_end) :: rest' =>
      if n_lt (n_sub next_start cur_end) gap_threshold_ms
      then reference_sweep gap_threshold_ms cur_start (py_max cur_end next_end) rest'
      else (cur_start, cur_end)
           :: reference_sweep gap_threshold_ms next_start next_end rest'
  end.

Definition reference_merge (intervals : list segment) (gap_threshold_ms : num)
    : list segment :=
  match sorted intervals with
  | [] => []
  | (s, e) :: rest => reference_sweep gap_threshold_ms s e rest
  end.

(** The loop body on the element instead of on its index. *)
Definition step_on (t : num) (st : sweep_state) (next : segment) : sweep_state :=
  if n_lt (n_sub (fst next) (current_end st)) t then
    SweepState (current_start st) (py_max (current_end st) (snd next))
               (merged_segments st)
  else
    SweepState (fst next) (snd next)
               (merged_segments st ++ [(current_start st, current_end st)]).

(** No start is smaller than the start before it. *)
Fixpoint not_descending (l : list segment) : Prop :=
  match l with
  | [] => True
  | a :: l' =>
      match l' with
      | [] => True
      | b :: _ => n_lt (fst b) (fst a) = false
      end /\ not_descending l'
  end.

(** After a running interval that ends at [e], no interval is within the
    threshold [t] of its predecessor, as the code tests it. *)
Fixpoint apart (t : num) (e : num) (l : list segment) : Prop :=
  match l with
  | [] => True
  | x :: l' => n_lt (n_sub (fst x) e) t = false /\ apart t (snd x) l'
  end.

(** Padding of one detector track, and the audio length, as computed in
    [detect_continuous_speech_segments]. *)
Definition pad_segment (speech_pad_ms : Z) (audio_length_ms : num)
    (raw : num * num) : segment :=
  let start_ms := n_mul (fst raw) (of_int 1000) in
  let end_ms := n_mul (snd raw) (of_int 1000) in
  let start_ms := py_max (of_int 0) (n_sub start_ms (of_int speech_pad_ms)) in
  let end_ms := py_min audio_length_ms (n_add end_ms (of_int speech_pad_ms)) in
  (start_ms, end_ms).

(** [len(waveform) / sample_rate * 1000].  The quotient of the two [int]s
    is the correctly rounded one, which for operands below 2^53 (every
    sample count and rate) is the quotient of the two doubles. *)
Definition audio_length_ms_of (waveform_len : N) (sample_rate : positive) : num :=
  let audio_length := n_div (of_int (Z.of_N waveform_len)) (of_int (Zpos sample_rate)) in
  n_mul audio_length (of_int 1000).

Definition detect_continuous_speech_segments
    (vad_result : list (num * num)) (waveform_len : N) (sample_rate : positive)
    (silence_threshold_sec : num) (speech_pad_ms : Z) : list segment :=
  let audio_length_ms := audio_length_ms_of waveform_len sample_rate in
  let speech_segments := map (pad_segment speech_pad_ms audio_length_ms) vad_result in
  match speech_segments with
  | [] => []
  | _ :: _ => merge_speech_segments_from_tuples speech_segments silence_threshold_sec
  end.

(** ** SRT output *)

Definition milliseconds_to_srt_time (ms : num) : pystr :=
  let hours := n_int (n_floordiv ms (of_int 3600000)) in
  let ms := n_mod ms (of_int 3600000) in
  let minutes := n_int (n_floordiv ms (of_int 60000)) in
  let ms := n_mod ms (of_int 60000) in
  let seconds := n_int (n_floordiv ms (of_int 1000)) in
  let milliseconds := n_int (n_mod ms (of_int 1000)) in
  format_0d 2 hours ++ str ":" ++ format_0d 2 minutes ++ str ":" ++
  format_0d 2 seconds ++ str "," ++ format_0d 3 milliseconds.

Record transcript_entry : Type := TranscriptEntry {
  start : num;
  end_ : num;
  text : pystr
}.

(** One element of [all_segments]; [whisper_segments] is
    [seg_info['whisper_result'].get('segments', [])]. *)
Record seg_info_t : Type := SegInfo {
  segment_index : nat;
  segment_start_ms : num;
  segment_end_ms : num;
  whisper_segments : list transcript_entry
}.

(** The body of the inner loop of [generate_srt]; the state is
    [subtitle_index] and what has been written to [f] so far. *)
Definition write_entry (segment_start_ms : num) (st : nat * pystr)
    (segment : transcript_entry) : nat * pystr :=
  let '(subtitle_index, f) := st in
  let start_ms := n_add segment_start_ms (n_mul (start segment) (of_int 1000)) in
  let end_ms := n_add segment_start_ms (n_mul (end_ segment) (of_int 1000)) in
  let text := strip (text segment) in
  if truthy text then
    let f := f ++ (decimal (Z.of_nat subtitle_index) ++ newline) in
    let f := f ++ (milliseconds_to_srt_time start_ms ++ str " --> " ++
                   milliseconds_to_srt_time end_ms ++ newline) in
    let f := f ++ (text ++ newline) in
    let f := f ++ newline in
    (S subtitle_index, f)
  else (subtitle_index, f).

Definition write_segment (st : nat * pystr) (seg_info : seg_info_t) : nat * pystr :=
  fold_left (write_entry (segment_start_ms seg_info)) (whisper_segments seg_info) st.

Definition generate_srt (all_segments : list seg_info_t) : pystr :=
  snd (fold_left write_segment all_segments (1%nat, [])).

(** The cue list of the specification. *)
Record cue : Type := Cue {
  cue_index : nat;
  cue_start_ms : num;
  cue_end_ms : num;
  cue_text : pystr
}.

Definition kept (e : transcript_entry) : bool := truthy (strip (text e)).

Fixpoint number_cues (first : nat) (seg_start_ms : num)
    (entries : list transcript_entry) : list cue :=
  match entries with
  | [] => []
  | e :: rest =>
      if kept e then
        Cue first (n_add seg_start_ms (n_mul (start e) (of_int 1000)))
            (n_add seg_start_ms (n_mul (end_ e) (of_int 1000)))
            (strip (text e))
        :: number_cues (S first) seg_start_ms rest
      else number_cues first seg_start_ms rest
  end.

Fixpoint reassemble_from (first : nat) (results : list seg_info_t) : list cue :=
  match results with
  | [] => []
  | r :: rest =>
      let cs := number_cues first (segment_start_ms r) (whisper_segments r) in
      cs ++ reassemble_from (first + length cs) rest
  end.

Definition reassemble (results : list seg_info_t) : list cue :=
  reassemble_from 1 results.

Definition render_cue (c : cue) : pystr :=
  decimal (Z.of_nat (cue_index c)) ++ newline ++
  milliseconds_to_srt_time (cue_start_ms c) ++ str " --> " ++
  milliseconds_to_srt_time (cue_end_ms c) ++ newline ++
  cue_text c ++ newline ++
  newline.

End WithArith.
End Code.

(* ===================================================================== *)
(** * Facts about the interval merger *)
(* ===================================================================== *)

Module MergerFacts.
Import Merger.
Local Open Scope Q_scope.

Lemma Qltb_lt (a b : Q) : Qltb a b = true <-> a < b.
Proof.
  unfold Qltb. rewrite Qlt_alt. destruct (a ?= b); split; congruence.
Qed.

Lemma Qltb_ge (a b : Q) : Qltb a b = false <-> b <= a.
Proof.
  split.
  - intros H. apply Qnot_lt_le. intros Hlt. apply Qltb_lt in Hlt. congruence.
  - intros H. destruct (Qltb a b) eqn:E; [|reflexivity].
    apply Qltb_lt in E. exfalso. exact (Qle_not_lt _ _ H E).
Qed.

Lemma py_max_Qmax (a b : Q) : py_max a b = Qmax a b.
Proof.
  unfold py_max, Qltb, Qmax, GenericMinMax.gmax. destruct (a ?= b); reflexivity.
Qed.

Lemma py_max_ge_l (a b : Q) : a <= py_max a b.
Proof.
  unfold py_max. destruct (Qltb a b) eqn:E.
  - apply Qltb_lt in E. apply Qlt_le_weak. exact E.
  - apply Qle_refl.
Qed.

Lemma py_max_ge_r (a b : Q) : b <= py_max a b.
Proof.
  unfold py_max. destruct (Qltb a b) eqn:E.
  - apply Qle_refl.
  - apply Qltb_ge in E. exact E.
Qed.

Lemma py_min_le_l (a b : Q) : py_min a b <= a.
Proof.
  unfold py_min. destruct (Qltb b a) eqn:E.
  - apply Qltb_lt in E. apply Qlt_le_weak. exact E.
  - apply Qle_refl.
Qed.

Lemma merge_iteration_nth pre x rest t st :
  merge_iteration (pre ++ x :: rest) t st (length pre) = step_on t st x.
Proof.
  unfold merge_iteration, step_on.
  rewrite app_nth2 by lia. rewrite Nat.sub_diag. simpl.
  destruct x as [ns ne]. reflexivity.
Qed.

Lemma fold_indices_as_elements rest : forall pre t st,
  fold_left (merge_iteration (pre ++ rest) t) (seq (length pre) (length rest)) st
  = fold_left (step_on t) rest st.
Proof.
  induction rest as [|x rest IH]; intros pre t st; [reflexivity|].
  cbn [length seq fold_left]. rewrite merge_iteration_nth.
  specialize (IH (pre ++ [x]) t (step_on t st x)).
  rewrite <- app_assoc in IH. cbn [app] in IH.
  rewrite length_app in IH. cbn [length] in IH.
  rewrite Nat.add_1_r in IH. exact IH.
Qed.

Lemma fold_elements_as_sweep rest : forall t st,
  let st' := fold_left (step_on t) rest st in
  merged_segments st' ++ [(current_start st', current_end st')]
  = merged_segments st ++ reference_sweep t (current_start st) (current_end st) rest.
Proof.
  induction rest as [|[ns ne] rest IH]; intros t st; [reflexivity|].
  cbn [fold_left reference_sweep]. cbv zeta in IH |- *. rewrite IH.
  unfold step_on. cbn [fst snd].
  destruct (Qltb (ns - current_end st) t); cbn [current_start current_end merged_segments].
  - rewrite py_max_Qmax. reflexivity.
  - rewrite <- app_assoc. reflexivity.
Qed.

Lemma sorted_cons_nonempty x l : sorted (x :: l) <> [].
Proof.
  cbn [sorted]. destruct (sorted l) as [|y l']; cbn; [discriminate|].
  destruct (Qle_bool (fst x) (fst y)); discriminate.
Qed.

Lemma merge_eq_reference segments silence_threshold_sec :
  merge_speech_segments_from_tuples segments silence_threshold_sec
  = reference_merge segments (silence_threshold_sec * 1000).
Proof.
  unfold merge_speech_segments_from_tuples, reference_merge.
  destruct segments as [|x l]; [reflexivity|].
  pose proof (sorted_cons_nonempty x l) as Hne.
  destruct (sorted (x :: l)) as [|[s e] rest]; [congruence|].
  cbn [nth].
  replace (length ((s, e) :: rest) - 1)%nat with (length rest)
    by (cbn [length]; lia).
  pose proof (fold_indices_as_elements rest [(s, e)]) as Hidx.
  cbn [app length] in Hidx. rewrite Hidx.
  pose proof (fold_elements_as_sweep rest (silence_threshold_sec * 1000)
                (SweepState s e [])) as Hsw.
  cbv zeta in Hsw. rewrite Hsw. reflexivity.
Qed.

(** ** The sort *)

Lemma insert_by_start_perm x l : Permutation (x :: l) (insert_by_start x l).
Proof.
  induction l as [|y l IH]; cbn [insert_by_start]; [reflexivity|].
  destruct (Qle_bool (fst x) (fst y)); [reflexivity|].
  rewrite perm_swap. apply perm_skip. exact IH.
Qed.

Lemma sorted_perm l : Permutation l (sorted l).
Proof.
  induction l as [|x l IH]; cbn [sorted]; [reflexivity|].
  rewrite <- insert_by_start_perm. apply perm_skip. exact IH.
Qed.

Lemma ascending_from_weaken s s' l :
  s' <= s -> ascending_from s l -> ascending_from s' l.
Proof.
  destruct l as [|x l]; cbn [ascending_from]; [trivial|].
  intros Hle [Hs Hl]. split; [|exact Hl]. apply Qle_trans with s; assumption.
Qed.


Lemma insert_ascending_from x l : forall s,
  s <= fst x -> ascending_from s l -> ascending_from s (insert_by_start x l).
Proof.
  induction l as [|y l IH]; intros s Hsx Hasc; cbn [insert_by_start].
  - cbn. auto.
  - destruct Hasc as [Hsy Hl].
    destruct (Qle_bool (fst x) (fst y)) eqn:E.
    + apply Qle_bool_iff in E. cbn [ascending_from]. auto.
    + cbn [ascending_from]. split; [exact Hsy|].
      apply IH; [|exact Hl].
      destruct (Qlt_le_dec (fst x) (fst y)) as [Hlt|Hge]; [|exact Hge].
      apply Qlt_le_weak in Hlt. apply Qle_bool_iff in Hlt. congruence.
Qed.

Lemma sorted_ascending l : starts_ascending (sorted l).
Proof.
  induction l as [|x l IH]; cbn [sorted]; [exact I|].
  destruct (sorted l) as [|y l']; [exact I|].
  cbn [insert_by_start]. cbn [starts_ascending] in IH.
  destruct (Qle_bool (fst x) (fst y)) eqn:E.
  - apply Qle_bool_iff in E. cbn. auto.
  - cbn [starts_ascending]. apply insert_ascending_from; [|exact IH].
    destruct (Qlt_le_dec (fst x) (fst y)) as [Hlt|Hge]; [|exact Hge].
    apply Qlt_le_weak in Hlt. apply Qle_bool_iff in Hlt. congruence.
Qed.

(** Sorting a list whose starts already ascend changes nothing. *)
Lemma sorted_of_ascending l : starts_ascending l -> sorted l = l.
Proof.
  induction l as [|x l IH]; [reflexivity|].
  cbn [starts_ascending sorted]. intros Hasc.
  destruct l as [|y l]; [reflexivity|].
  destruct Hasc as [Hxy Hl]. rewrite IH by exact Hl.
  cbn [insert_by_start]. apply Qle_bool_iff in Hxy. rewrite Hxy. reflexivity.
Qed.

(** ** The sweep *)

Lemma sweep_separated t rest : forall cs ce,
  ascending_from cs rest ->
  exists ce' out,
    reference_sweep t cs ce rest = (cs, ce') :: out /\
    ce <= ce' /\ separated_from t cs ce' out.
Proof.
  induction rest as [|[ns ne] rest IH]; intros cs ce Hasc; cbn [reference_sweep].
  - exists ce, []. split; [reflexivity|]. split; [apply Qle_refl|exact I].
  - destruct Hasc as [Hs Hrest]. cbn [fst] in Hs, Hrest.
    destruct (Qltb (ns - ce) t) eqn:E.
    + destruct (IH cs (Qmax ce ne) (ascending_from_weaken _ _ _ Hs Hrest))
        as (ce' & out & -> & Hle & Hsep).
      exists ce', out. split; [reflexivity|]. split; [|exact Hsep].
      apply Qle_trans with (Qmax ce ne); [apply Q.le_max_l|exact Hle].
    + destruct (IH ns ne Hrest) as (ce' & out & -> & Hle & Hsep).
      exists ce, ((ns, ce') :: out). split; [reflexivity|].
      split; [apply Qle_refl|].
      cbn [separated_from fst snd]. auto.
Qed.

Lemma separated_ascending t l : forall s e,
  separated_from t s e l -> ascending_from s l.
Proof.
  induction l as [|x l IH]; intros s e; cbn; [trivial|].
  intros (Hs & _ & Hl). split; [exact Hs|]. apply (IH _ _ Hl).
Qed.

(** The sweep flushes every interval of a separated chain unchanged. *)
Lemma sweep_of_separated t l : forall s e,
  separated_from t s e l -> reference_sweep t s e l = (s, e) :: l.
Proof.
  induction l as [|[ns ne] l IH]; intros s e; cbn [reference_sweep]; [reflexivity|].
  cbn [separated_from fst snd]. intros (_ & -> & Hl).
  rewrite (IH _ _ Hl). reflexivity.
Qed.

Lemma reference_merge_idempotent l t :
  reference_merge (reference_merge l t) t = reference_merge l t.
Proof.
  unfold reference_merge at 2 3.
  pose proof (sorted_ascending l) as Hasc.
  destruct (sorted l) as [|[s e] rest]; [reflexivity|].
  cbn [starts_ascending fst] in Hasc.
  destruct (sweep_separated t rest s e Hasc) as (ce' & out & -> & _ & Hsep).
  unfold reference_merge.
  rewrite sorted_of_ascending
    by (cbn [starts_ascending fst]; apply (separated_ascending _ _ _ _ Hsep)).
  apply sweep_of_separated. exact Hsep.
Qed.

(** ** Coverage and disjointness of the sweep's output *)

Lemma covers_cons a l x :
  covers (a :: l) x <-> (fst a <= x /\ x < snd a) \/ covers l x.
Proof.
  unfold covers. split.
  - intros (s & [<-|Hin] & Hx); [left; exact Hx|right; exists s; auto].
  - intros [Hx|(s & Hin & Hx)]; [exists a|exists s]; cbn; auto.
Qed.







(** ** The claims about the merger *)

(** C6.  Merging is idempotent: merging the output again with the same
    threshold returns that output. *)
Theorem merge_idempotent :
  forall segments silence_threshold_sec,
    merge_speech_segments_from_tuples
      (merge_speech_segments_from_tuples segments silence_threshold_sec)
      silence_threshold_sec
    = merge_speech_segments_from_tuples segments silence_threshold_sec.
Proof.
  intros l t. rewrite !merge_eq_reference. apply reference_merge_idempotent.
Qed.




End MergerFacts.

(* ===================================================================== *)
(** * Facts about reassembly and the SRT text *)
(* ===================================================================== *)

Module SrtFacts.
Import Srt.
Local Open Scope Q_scope.

(** ** The writing loops against the cue list *)

Lemma write_entries_cues entries : forall seg_start n f,
  fold_left (write_entry seg_start) entries (n, f)
  = ((n + length (number_cues n seg_start entries))%nat,
     f ++ flat_map render_cue (number_cues n seg_start entries)).
Proof.
  induction entries as [|e entries IH]; intros seg_start n f.
  - cbn. rewrite Nat.add_0_r, app_nil_r. reflexivity.
  - cbn [fold_left number_cues]. unfold write_entry at 2. fold (kept e).
    destruct (kept e).
    + rewrite IH. cbn [length flat_map]. f_equal; [lia|].
      unfold render_cue at 2. cbn [cue_index cue_start_ms cue_end_ms cue_text].
      rewrite <- !app_assoc. reflexivity.
    + apply IH.
Qed.

Lemma write_segments_cues results : forall n f,
  fold_left write_segment results (n, f)
  = ((n + length (reassemble_from n results))%nat,
     f ++ flat_map render_cue (reassemble_from n results)).
Proof.
  induction results as [|r results IH]; intros n f.
  - cbn. rewrite Nat.add_0_r, app_nil_r. reflexivity.
  - cbn [fold_left reassemble_from]. unfold write_segment at 2.
    rewrite write_entries_cues, IH. cbv zeta.
    rewrite length_app, flat_map_app, app_assoc. f_equal. lia.
Qed.

Lemma generate_srt_renders results :
  generate_srt results = flat_map render_cue (reassemble results).
Proof.
  unfold generate_srt, reassemble. rewrite write_segments_cues. reflexivity.
Qed.

(** ** Numbering *)

Lemma number_cues_indices entries : forall n seg_start,
  map cue_index (number_cues n seg_start entries)
  = seq n (length (number_cues n seg_start entries)).
Proof.
  induction entries as [|e entries IH]; intros n seg_start; [reflexivity|].
  cbn [number_cues]. destruct (kept e); [|apply IH].
  cbn [map length seq cue_index]. f_equal. apply IH.
Qed.

Lemma reassemble_from_indices results : forall n,
  map cue_index (reassemble_from n results)
  = seq n (length (reassemble_from n results)).
Proof.
  induction results as [|r results IH]; intros n; [reflexivity|].
  cbn [reassemble_from]. cbv zeta.
  rewrite map_app, length_app, seq_app, number_cues_indices, IH. reflexivity.
Qed.

Lemma number_cues_texts entries : forall n seg_start,
  map cue_text (number_cues n seg_start entries)
  = map (fun e => strip (text e)) (List.filter kept entries).
Proof.
  induction entries as [|e entries IH]; intros n seg_start; [reflexivity|].
  cbn [number_cues List.filter]. destruct (kept e); cbn [map cue_text]; rewrite IH; reflexivity.
Qed.

Lemma reassemble_from_texts results : forall n,
  map cue_text (reassemble_from n results)
  = map (fun e => strip (text e))
        (List.filter kept (flat_map (fun r => segments (whisper_result r)) results)).
Proof.
  induction results as [|r results IH]; intros n; [reflexivity|].
  cbn [reassemble_from flat_map]. cbv zeta.
  rewrite map_app, number_cues_texts, IH.
  rewrite <- map_app. f_equal. symmetry. apply List.filter_app.
Qed.

Lemma number_cues_times entries : forall n seg_start,
  Forall (fun c => exists e, In e entries /\ kept e = true /\
                   cue_start_ms c = seg_start + start e * 1000 /\
                   cue_end_ms c = seg_start + end_ e * 1000 /\
                   cue_text c = strip (text e))
         (number_cues n seg_start entries).
Proof.
  induction entries as [|e entries IH]; intros n seg_start; [constructor|].
  assert (Hrest : forall m,
    Forall (fun c => exists e', In e' (e :: entries) /\ kept e' = true /\
                   cue_start_ms c = seg_start + start e' * 1000 /\
                   cue_end_ms c = seg_start + end_ e' * 1000 /\
                   cue_text c = strip (text e'))
           (number_cues m seg_start entries)).
  { intros m. eapply List.Forall_impl; [|apply IH].
    intros c (e' & Hin & Hrest). exists e'. split; [right; exact Hin|exact Hrest]. }
  cbn [number_cues]. destruct (kept e) eqn:Hk; [|apply Hrest].
  constructor; [|apply Hrest].
  exists e. cbn. auto.
Qed.

Lemma reassemble_from_times results : forall n,
  Forall (fun c => exists r e,
            In r results /\ In e (segments (whisper_result r)) /\
            cue_start_ms c = segment_start_ms r + start e * 1000 /\
            cue_end_ms c = segment_start_ms r + end_ e * 1000)
         (reassemble_from n results).
Proof.
  induction results as [|r results IH]; intros n; [constructor|].
  cbn [reassemble_from]. cbv zeta. apply Forall_app. split.
  - eapply List.Forall_impl; [|apply number_cues_times].
    intros c (e & Hin & _ & Hs & He & _). exists r, e. cbn. auto.
  - eapply List.Forall_impl; [|apply IH].
    intros c (r' & e & Hr & He & Ht). exists r', e. cbn. auto.
Qed.

(** ** The time stamp *)

Lemma Qfloor_div_pos (q : Q) (k : positive) :
  Qfloor (q / inject_Z (Zpos k)) = (Qfloor q / Zpos k)%Z.
Proof.
  destruct q as [n d]. unfold Qdiv, Qinv, Qmult, Qfloor, inject_Z.
  cbn [Qnum Qden]. rewrite Z.mul_1_r, Pos2Z.inj_mul.
  symmetry. apply Z.div_div; lia.
Qed.

Lemma Qfloor_minus_Z (q : Q) (m : Z) :
  Qfloor (q - inject_Z m) = (Qfloor q - m)%Z.
Proof.
  destruct q as [n d]. unfold Qminus, Qplus, Qopp, Qfloor, inject_Z.
  cbn [Qnum Qden]. rewrite Pos.mul_1_r, Z.mul_1_r.
  rewrite Z.div_add by lia. lia.
Qed.

Lemma Qfloor_pymod (q : Q) (k : positive) :
  Qfloor (pymod q (inject_Z (Zpos k))) = (Qfloor q mod Zpos k)%Z.
Proof.
  unfold pymod. rewrite <- inject_Z_mult, Qfloor_minus_Z, Qfloor_div_pos.
  rewrite Z.mod_eq by lia. reflexivity.
Qed.

Lemma py_int_Z (z : Z) : py_int (inject_Z z) = z.
Proof.
  unfold py_int. destruct (Qle_bool 0 (inject_Z z)); [apply Qfloor_Z|apply Qceiling_Z].
Qed.

Lemma py_int_floor (x : Q) : (0 <= Qfloor x)%Z -> py_int x = Qfloor x.
Proof.
  intros H. unfold py_int.
  assert (Hx : 0 <= x).
  { apply Qle_trans with (inject_Z (Qfloor x)); [|apply Qfloor_le].
    change 0 with (inject_Z 0). rewrite <- Zle_Qle. exact H. }
  apply Qle_bool_iff in Hx. rewrite Hx. reflexivity.
Qed.

(** A property decided on every number below a bound holds below it. *)
Lemma checked_below (P : Z -> bool) (bound : nat) :
  forallb (fun i => P (Z.of_nat i)) (seq 0 bound) = true ->
  forall z, (0 <= z < Z.of_nat bound)%Z -> P z = true.
Proof.
  intros Hall z Hz. rewrite forallb_forall in Hall.
  specialize (Hall (Z.to_nat z)). rewrite Z2Nat.id in Hall by lia.
  apply Hall. apply in_seq. lia.
Qed.

Lemma format_0d_two (z : Z) :
  (0 <= z < 100)%Z -> format_0d 2 z = [digit (z / 10); digit (z mod 10)].
Proof.
  intros Hz.
  pose proof (checked_below
    (fun z => bool_decide (format_0d 2 z = [digit (z / 10); digit (z mod 10)])) 100) as H.
  assert (Hall : forallb
    (fun i => (fun z => bool_decide (format_0d 2 z = [digit (z / 10); digit (z mod 10)]))
              (Z.of_nat i)) (seq 0 100) = true) by (vm_compute; reflexivity).
  specialize (H Hall z Hz). cbv beta in H.
  apply bool_decide_eq_true in H. exact H.
Qed.

Lemma format_0d_three (z : Z) :
  (0 <= z < 1000)%Z ->
  format_0d 3 z = [digit (z / 100); digit (z / 10 mod 10); digit (z mod 10)].
Proof.
  intros Hz.
  pose proof (checked_below
    (fun z => bool_decide (format_0d 3 z
                = [digit (z / 100); digit (z / 10 mod 10); digit (z mod 10)])) 1000) as H.
  assert (Hall : forallb
    (fun i => (fun z => bool_decide (format_0d 3 z
                = [digit (z / 100); digit (z / 10 mod 10); digit (z mod 10)]))
              (Z.of_nat i)) (seq 0 1000) = true) by (vm_compute; reflexivity).
  specialize (H Hall z Hz). cbv beta in H.
  apply bool_decide_eq_true in H. exact H.
Qed.

Lemma srt_time_fields (ms : Q) :
  let t := Qfloor ms in
  0 <= ms -> ms < 360000000 ->
  milliseconds_to_srt_time ms
  = [digit (t / 3600000 / 10); digit ((t / 3600000) mod 10); 58%N;
     digit ((t / 60000) mod 60 / 10); digit ((t / 60000) mod 60 mod 10); 58%N;
     digit ((t / 1000) mod 60 / 10); digit ((t / 1000) mod 60 mod 10); 44%N;
     digit (t mod 1000 / 100); digit (t mod 1000 / 10 mod 10); digit (t mod 1000 mod 10)].
Proof.
  intros t Hlo Hhi.
  assert (Ht : (0 <= t < 360000000)%Z).
  { subst t. split.
    - change 0%Z with (Qfloor 0). apply Qfloor_resp_le. exact Hlo.
    - rewrite Zlt_Qlt. apply Qle_lt_trans with ms; [apply Qfloor_le|exact Hhi]. }
  unfold milliseconds_to_srt_time, floordiv.
  change 3600000 with (inject_Z 3600000).
  change 60000 with (inject_Z 60000).
  change 1000 with (inject_Z 1000).
  rewrite !py_int_Z, !Qfloor_div_pos, !Qfloor_pymod.
  rewrite py_int_floor by (rewrite !Qfloor_pymod; apply Z.mod_pos_bound; lia).
  rewrite !Qfloor_pymod. fold t.
  assert (Hm : ((t mod 3600000) / 60000 = (t / 60000) mod 60)%Z)
    by (Z.to_euclidean_division_equations; lia).
  assert (Hs : (((t mod 3600000) mod 60000) / 1000 = (t / 1000) mod 60)%Z)
    by (Z.to_euclidean_division_equations; lia).
  assert (Hk : (((t mod 3600000) mod 60000) mod 1000 = t mod 1000)%Z)
    by (Z.to_euclidean_division_equations; lia).
  rewrite Hm, Hs, Hk.
  rewrite (format_0d_two (t / 3600000))
    by (Z.to_euclidean_division_equations; lia).
  rewrite !format_0d_two by (Z.to_euclidean_division_equations; lia).
  rewrite format_0d_three by (apply Z.mod_pos_bound; lia).
  reflexivity.
Qed.

Lemma generate_srt_empty_segment results i start_ms end_ms :
  generate_srt (results ++ [SegInfo i start_ms end_ms (WhisperResult [])])
  = generate_srt results.
Proof.
  unfold generate_srt. rewrite fold_left_app. reflexivity.
Qed.

(** ** Closed form of the cue list *)

Lemma number_app l1 : forall n l2,
  number n (l1 ++ l2) = number n l1 ++ number (n + length l1) l2.
Proof.
  induction l1 as [|p l1 IH]; intros n l2; cbn [app number length].
  - rewrite Nat.add_0_r. reflexivity.
  - rewrite IH. cbn [app]. do 3 f_equal. lia.
Qed.

Lemma number_length l : forall n, length (number n l) = length l.
Proof.
  induction l as [|p l IH]; intros n; cbn [number length]; [|rewrite IH]; reflexivity.
Qed.

Lemma number_indices l : forall n, map cue_index (number n l) = seq n (length l).
Proof.
  induction l as [|p l IH]; intros n; cbn [number map length seq]; [|rewrite IH];
    reflexivity.
Qed.

Lemma number_cues_closed entries : forall n seg_start,
  number_cues n seg_start entries
  = number n (List.filter (fun p => kept (snd p)) (map (pair seg_start) entries)).
Proof.
  induction entries as [|e entries IH]; intros n seg_start; [reflexivity|].
  cbn [number_cues map List.filter snd]. destruct (kept e); rewrite IH; reflexivity.
Qed.

Lemma reassemble_from_closed results : forall n,
  reassemble_from n results = number n (kept_entries results).
Proof.
  unfold kept_entries.
  induction results as [|r results IH]; intros n; [reflexivity|].
  cbn [reassemble_from flat_map]. cbv zeta.
  rewrite List.filter_app, number_app, IH, number_cues_closed, number_length.
  reflexivity.
Qed.

(** ** The claims about the reassembler *)

(** C5.  Exactly the transcript entries whose stripped text is not empty
    give a cue, one each, in the order of the segments and of the entries
    within a segment, and the cues are numbered 1, 2, 3, ... without gaps.
    Segments with 2, 0 and 3 such entries give cues 1 to 5, and cue 3 is
    the first kept entry of the third segment. *)
Theorem cues_numbered_in_emission_order :
  (forall results,
      generate_srt results = flat_map render_cue (reassemble results) /\
      reassemble results = number 1 (kept_entries results) /\
      length (reassemble results) = length (kept_entries results) /\
      map cue_index (reassemble results) = seq 1 (length (kept_entries results))) /\
  (let first := SegInfo 0 0 5000 (WhisperResult
        [TranscriptEntry 0 1 (str "a"); TranscriptEntry 1 2 (str "  ");
         TranscriptEntry 2 3 (str " b ")]) in
   let second := SegInfo 1 10000 15000 (WhisperResult
        [TranscriptEntry 0 1 []; TranscriptEntry 1 2 (9 :: 12288 :: newline)%N]) in
   let third := SegInfo 2 20000 25000 (WhisperResult
        [TranscriptEntry (1 # 2) 1 (str "c" ++ newline); TranscriptEntry 1 2 (str "d");
         TranscriptEntry 2 3 (str "e")]) in
   let cues := reassemble [first; second; third] in
   map cue_index cues = [1; 2; 3; 4; 5]%nat /\
   map cue_text cues = [str "a"; str "b"; str "c"; str "d"; str "e"] /\
   nth_error cues 2
   = Some (Cue 3 (20000 + (1 # 2) * 1000) (20000 + 1 * 1000) (str "c"))).
Proof.
  split.
  - intros results. unfold reassemble.
    rewrite reassemble_from_closed, number_length, number_indices.
    split; [|auto].
    rewrite <- reassemble_from_closed. apply generate_srt_renders.
  - cbv zeta. split; [reflexivity|]. split; reflexivity.
Qed.

(** C9, as stated, fails: a cue at 100 hours or later has an hours field
    of three digits. *)
Lemma hours_field_wider_than_two :
  generate_srt [SegInfo 0 360000000 360001000
                  (WhisperResult [TranscriptEntry 0 1 (str "hi")])]
  = str "1" ++ newline ++ str "100:00:00,000 --> 100:00:01,000" ++ newline ++
    str "hi" ++ newline ++ newline /\
  milliseconds_to_srt_time 360000000 = str "100:00:00,000" /\
  length (milliseconds_to_srt_time 360000000) <> 12%nat.
Proof.
  split; [reflexivity|]. split; [reflexivity|]. vm_compute. discriminate.
Qed.

(** C9, amended.  The output is the concatenation, cue by cue, of the
    index in decimal, a line feed, the start stamp, [" --> "], the end
    stamp, a line feed, the text, a line feed and one more line feed, the
    indices being 1, 2, 3, ...; and for a time from 0 up to, not
    including, 100 hours the stamp is exactly two hour digits, a colon,
    two minute digits, a colon, two second digits, a comma and three
    millisecond digits. *)
Theorem srt_block_format :
  (forall results,
      generate_srt results
      = flat_map (fun c =>
          decimal (Z.of_nat (cue_index c)) ++ [10%N] ++
          milliseconds_to_srt_time (cue_start_ms c) ++ str " --> " ++
          milliseconds_to_srt_time (cue_end_ms c) ++ [10%N] ++
          cue_text c ++ [10%N] ++ [10%N]) (reassemble results) /\
      map cue_index (reassemble results) = seq 1 (length (reassemble results))) /\
  (forall ms, 0 <= ms -> ms < 360000000 ->
      let t := Qfloor ms in
      milliseconds_to_srt_time ms
      = [digit (t / 3600000 / 10); digit ((t / 3600000) mod 10); 58%N;
         digit ((t / 60000) mod 60 / 10); digit ((t / 60000) mod 60 mod 10); 58%N;
         digit ((t / 1000) mod 60 / 10); digit ((t / 1000) mod 60 mod 10); 44%N;
         digit (t mod 1000 / 100); digit (t mod 1000 / 10 mod 10);
         digit (t mod 1000 mod 10)]).
Proof.
  split.
  - intros results. split; [apply generate_srt_renders|apply reassemble_from_indices].
  - intros ms Hlo Hhi. apply srt_time_fields; assumption.
Qed.

Lemma srt_block_format_witness :
  0 <= 3723004 + (7 # 10) /\ 3723004 + (7 # 10) < 360000000 /\
  milliseconds_to_srt_time (3723004 + (7 # 10)) = str "01:02:03,004".
Proof.
  assert (Hlo : 0 <= 3723004 + (7 # 10)) by discriminate.
  assert (Hhi : 3723004 + (7 # 10) < 360000000) by reflexivity.
  split; [exact Hlo|]. split; [exact Hhi|].
  exact (proj2 srt_block_format (3723004 + (7 # 10)) Hlo Hhi).
Defined.

End SrtFacts.

(* ===================================================================== *)
(** * Facts about the checkpoint store and the driver *)
(* ===================================================================== *)

Module DriverFacts.
Import Srt Driver.
Local Open Scope string_scope.
Local Arguments String.append !_ _ / : simpl nomatch.

(** ** File names *)

Lemma append_assoc3 (a b c : string) : (a +:+ b) +:+ c = a +:+ (b +:+ c).
Proof.
  induction a as [|x a IH]; simpl; congruence.
Qed.

Lemma all_chars_app P (a b : string) :
  all_chars P (a +:+ b) = all_chars P a && all_chars P b.
Proof.
  induction a as [|x a IH]; cbn; [reflexivity|].
  rewrite IH. apply andb_assoc.
Qed.

Lemma all_chars_impl (P Q : ascii -> bool) (s : string) :
  (forall c, P c = true -> Q c = true) ->
  all_chars P s = true -> all_chars Q s = true.
Proof.
  intros HPQ. induction s as [|c s IH]; cbn; [reflexivity|].
  intros [Hc Hs]%andb_true_iff. rewrite (HPQ c Hc), (IH Hs). reflexivity.
Qed.

Lemma digit_plain (c : ascii) : is_digit c = true -> plain c = true.
Proof.
  destruct c as [[] [] [] [] [] [] [] []]; vm_compute; congruence.
Qed.

Lemma digits_of_uint (u : Decimal.uint) :
  all_chars is_digit (NilEmpty.string_of_uint u) = true.
Proof.
  induction u; cbn; [reflexivity|assumption..].
Qed.

Lemma digits_of_nat (n : nat) :
  all_chars is_digit (NilZero.string_of_uint (Nat.to_uint n)) = true.
Proof.
  unfold NilZero.string_of_uint.
  destruct (Nat.to_uint n) eqn:E; [reflexivity|rewrite <- E; apply digits_of_uint..].
Qed.

Lemma digits_of_zeros (n : nat) : all_chars is_digit (zeros n) = true.
Proof.
  induction n; cbn; [reflexivity|assumption].
Qed.

Lemma format_04d_plain (i : nat) : all_chars plain (format_04d i) = true.
Proof.
  apply (all_chars_impl is_digit); [exact digit_plain|].
  unfold format_04d. rewrite all_chars_app, digits_of_zeros, digits_of_nat.
  reflexivity.
Qed.

Lemma stem_plain (i : nat) : all_chars plain (stem i) = true.
Proof.
  unfold stem. rewrite all_chars_app, format_04d_plain. reflexivity.
Qed.

Lemma plain_no_slash (s : string) : all_chars plain s = true -> has_slash s = false.
Proof.
  induction s as [|c s IH]; cbn; [reflexivity|].
  intros [Hc Hs]%andb_true_iff. rewrite (IH Hs).
  unfold plain in Hc. apply andb_true_iff in Hc as [Hc _].
  destruct (is_slash c); [discriminate|reflexivity].
Qed.

Lemma has_slash_app (a b : string) :
  has_slash (a +:+ b) = has_slash a || has_slash b.
Proof.
  induction a as [|x a IH]; cbn; [reflexivity|].
  rewrite IH. apply orb_assoc.
Qed.

Lemma ends_with_slash_has (a : string) :
  ends_with_slash a = true -> has_slash a = true.
Proof.
  induction a as [|c a IH]; cbn; [discriminate|].
  destruct a as [|c' a]; [intros ->; reflexivity|].
  intros H. rewrite (IH H). apply orb_true_r.
Qed.

Lemma basename_no_slash (s : string) : has_slash s = false -> basename s = s.
Proof.
  destruct s as [|c s]; cbn; [reflexivity|].
  intros [Hc Hs]%orb_false_iff. rewrite Hs, Hc. reflexivity.
Qed.

Lemma basename_after_slash (d name : string) :
  has_slash name = false -> basename (d +:+ "/" +:+ name) = name.
Proof.
  intros Hn. induction d as [|c d IH]; cbn.
  - rewrite Hn. reflexivity.
  - rewrite has_slash_app. cbn. rewrite orb_true_r. exact IH.
Qed.

Lemma basename_after_dir (d name : string) :
  ends_with_slash d = true -> has_slash name = false ->
  basename (d +:+ name) = name.
Proof.
  intros Hd Hn. induction d as [|c d IH]; [discriminate|].
  cbn [append basename]. rewrite has_slash_app, Hn, orb_false_r.
  destruct d as [|c' d].
  - cbn in Hd |- *. rewrite Hd. reflexivity.
  - rewrite (ends_with_slash_has (String c' d)) by exact Hd.
    apply IH. exact Hd.
Qed.

Lemma prefix_cons (a b : ascii) (s1 s2 : string) :
  String.prefix (String a s1) (String b s2)
  = if ascii_dec a b then String.prefix s1 s2 else false.
Proof. reflexivity. Qed.

Lemma prefix_slash_has (name : string) :
  has_slash name = false -> String.prefix "/" name = false.
Proof.
  destruct name as [|c s]; [reflexivity|].
  cbn [has_slash]. intros [Hc _]%orb_false_iff. unfold is_slash in Hc.
  rewrite prefix_cons.
  destruct (ascii_dec "/" c) as [<-|]; [discriminate|reflexivity].
Qed.

Lemma basename_path_join (d name : string) :
  has_slash name = false -> basename (path_join d name) = name.
Proof.
  intros Hn. unfold path_join. rewrite (prefix_slash_has name Hn).
  destruct (String.length d =? 0)%nat eqn:El.
  - destruct d; [|discriminate]. cbn. apply basename_no_slash. exact Hn.
  - cbn [orb]. destruct (ends_with_slash d) eqn:Ed.
    + apply basename_after_dir; assumption.
    + apply basename_after_slash. exact Hn.
Qed.

Lemma replace_wav_suffix (s : string) :
  all_chars plain s = true -> str_replace ".wav" "" (s +:+ ".wav") = s.
Proof.
  unfold str_replace. induction s as [|c s IH]; [reflexivity|].
  cbn [all_chars]. intros [Hc Hs]%andb_true_iff.
  cbn [String.append replace_from]. rewrite prefix_cons.
  unfold plain, is_dot in Hc. apply andb_true_iff in Hc as [_ Hc].
  destruct (ascii_dec "." c) as [<-|]; [discriminate|].
  rewrite (IH Hs). reflexivity.
Qed.

(** The file the transcriber reads for segment [i] is the file the
    checkpoint store looks at. *)
Lemma whisper_json_file_segment (dir : string) (i : nat) :
  whisper_json_file (segment_wav dir i) dir = segment_json dir i.
Proof.
  unfold whisper_json_file, segment_wav, segment_json. fold (stem i).
  rewrite <- append_assoc3. fold (stem i).
  rewrite basename_path_join.
  - rewrite (replace_wav_suffix (stem i) (stem_plain i)). reflexivity.
  - rewrite has_slash_app, (plain_no_slash _ (stem_plain i)). reflexivity.
Qed.

(** ** The retry loop *)

Section WithCollaborators.
Context {env : Collaborators}.
Local Open Scope Q_scope.

Lemma whisper_attempt_events audio_file language model output_dir w :
  events (fst (whisper_attempt audio_file language model output_dir w))
  = (events w ++ [whisper_event audio_file language model output_dir])%list.
Proof.
  unfold whisper_attempt.
  destruct (run_whisper w audio_file (language_argument language) model output_dir)
    as [ok files].
  destruct ok; [|reflexivity].
  destruct (files !! whisper_json_file audio_file output_dir) as [content|];
    [|reflexivity].
  destruct (json_load content) as [[result|]|]; reflexivity.
Qed.

Lemma after_failure_fs attempt max_retries w :
  fs (after_failure attempt max_retries w) = fs w.
Proof.
  unfold after_failure. destruct (attempt <? max_retries - 1)%nat; reflexivity.
Qed.

Lemma failed_attempt_events_succ ev n :
  failed_attempt_events ev (S n)
  = (ev :: (if (0 <? n)%nat then [Sleep 5] else []) ++ failed_attempt_events ev n)%list.
Proof.
  destruct n; reflexivity.
Qed.

Lemma transcribe_attempts_fail audio_file language model output_dir max_retries n :
  forall k w,
    (k + n = max_retries)%nat ->
    fails_throughout (seq k n) max_retries audio_file language model output_dir w ->
    let r := transcribe_attempts (seq k n) max_retries
               audio_file language model output_dir w in
    snd r = empty_result /\
    events (fst r)
    = (events w
       ++ failed_attempt_events (whisper_event audio_file language model output_dir) n)%list.
Proof.
  induction n as [|n IH]; intros k w Hk Hfail; cbv zeta.
  - cbn. rewrite app_nil_r. auto.
  - cbn [seq transcribe_attempts fails_throughout] in Hfail |- *.
    destruct Hfail as [Hnone Hrest].
    pose proof (whisper_attempt_events audio_file language model output_dir w) as Hev.
    destruct (whisper_attempt audio_file language model output_dir w) as [w1 [r|]];
      [discriminate|].
    cbn [fst snd] in Hrest, Hev.
    destruct (IH (S k) _ ltac:(lia) Hrest) as [Hres Hevents].
    split; [exact Hres|]. rewrite Hevents, failed_attempt_events_succ.
    unfold after_failure.
    replace (k <? max_retries - 1)%nat with (0 <? n)%nat
      by (destruct (Nat.ltb_spec 0 n), (Nat.ltb_spec k (max_retries - 1)); lia || reflexivity).
    destruct (0 <? n)%nat; cbn [events]; rewrite Hev, <- ?app_assoc; reflexivity.
Qed.

Lemma engine_calls_failed audio_file language model output_dir n :
  engine_calls (failed_attempt_events (Whisper audio_file language model output_dir) n) = n.
Proof.
  induction n as [|n IH]; [reflexivity|].
  rewrite failed_attempt_events_succ. unfold engine_calls in *.
  cbn [List.filter length]. rewrite List.filter_app, length_app, IH.
  destruct (0 <? n)%nat; reflexivity.
Qed.

Lemma sleeps_failed ev n :
  (forall s, ev <> Sleep s) ->
  sleeps (failed_attempt_events ev n) = repeat 5%Z (n - 1).
Proof.
  intros Hev. induction n as [|n IH]; [reflexivity|].
  rewrite failed_attempt_events_succ. unfold sleeps in *.
  cbn [flat_map]. rewrite flat_map_app, IH.
  destruct ev; try (exfalso; eapply Hev; reflexivity).
  - destruct n as [|n]; [reflexivity|]. cbn. rewrite Nat.sub_0_r. reflexivity.
  - destruct n as [|n]; [reflexivity|]. cbn. rewrite Nat.sub_0_r. reflexivity.
Qed.

Lemma transcribe_events_extend audio_file language model output_dir max_retries attempts :
  forall w, exists tail,
    events (fst (transcribe_attempts attempts max_retries
                   audio_file language model output_dir w))
    = (events w ++ tail)%list /\
    (attempts <> [] ->
     exists tail', tail = whisper_event audio_file language model output_dir :: tail').
Proof.
  induction attempts as [|a attempts IH]; intros w.
  - exists []. cbn. rewrite app_nil_r. split; [reflexivity|congruence].
  - cbn [transcribe_attempts].
    pose proof (whisper_attempt_events audio_file language model output_dir w) as Hev.
    destruct (whisper_attempt audio_file language model output_dir w) as [w1 [r|]];
      cbn [fst] in Hev |- *.
    + eexists. rewrite Hev. split; [reflexivity|]. intros _. eexists. reflexivity.
    + destruct (IH (after_failure a max_retries w1)) as (tail & Htail & _).
      rewrite Htail. unfold after_failure.
      destruct (a <? max_retries - 1)%nat; cbn [events]; rewrite Hev, <- ?app_assoc;
        cbn [app]; (eexists; split; [reflexivity|]; intros _; eexists; reflexivity).
Qed.

(** ** Engine runs that leave no marker *)

Lemma check_false_lookup i dir (files : gmap string string) :
  check_segment_completed i dir files = false <->
  files !! segment_json dir i = None \/ files !! segment_json dir i = Some "".
Proof.
  unfold check_segment_completed.
  destruct (files !! segment_json dir i) as [content|]; [|tauto].
  destruct content as [|c content]; cbn.
  - tauto.
  - split; [discriminate|]. intros [H|H]; discriminate.
Qed.

Lemma unmarked_attempt i dir language model w :
  check_segment_completed i dir
    (fs (engine_run (segment_wav dir i) language model dir w)) = false ->
  whisper_attempt (segment_wav dir i) language model dir w
  = (engine_run (segment_wav dir i) language model dir w, None).
Proof.
  unfold engine_run, whisper_attempt. cbn [fs].
  rewrite whisper_json_file_segment.
  destruct (run_whisper w (segment_wav dir i) (language_argument language) model dir)
    as [ok files].
  cbn [snd]. intros [Hf|Hf]%check_false_lookup; rewrite Hf.
  - destruct ok; reflexivity.
  - rewrite json_load_empty. destruct ok; reflexivity.
Qed.

Lemma unmarked_attempts i dir language model max_retries attempts : forall w,
  leaves_unmarked i attempts max_retries (segment_wav dir i) language model dir w ->
  transcribe_attempts attempts max_retries (segment_wav dir i) language model dir w
  = (engine_runs attempts max_retries (segment_wav dir i) language model dir w,
     empty_result) /\
  fails_throughout attempts max_retries (segment_wav dir i) language model dir w.
Proof.
  induction attempts as [|a attempts IH]; intros w Hun; [split; [reflexivity|exact I]|].
  destruct Hun as [Hfirst Hrest].
  cbn [transcribe_attempts engine_runs fails_throughout].
  rewrite (unmarked_attempt _ _ _ _ _ Hfirst). cbn [fst snd].
  destruct (IH _ Hrest) as [Heq Hfail]. auto.
Qed.

Lemma engine_runs_unmarked i dir language model max_retries attempts : forall w,
  check_segment_completed i dir (fs w) = false ->
  leaves_unmarked i attempts max_retries (segment_wav dir i) language model dir w ->
  check_segment_completed i dir
    (fs (engine_runs attempts max_retries (segment_wav dir i) language model dir w))
  = false.
Proof.
  induction attempts as [|a attempts IH]; intros w Hw Hun; [exact Hw|].
  destruct Hun as [Hfirst Hrest]. cbn [engine_runs].
  apply IH; [|exact Hrest]. rewrite after_failure_fs. exact Hfirst.
Qed.

(** ** One iteration of the driver *)

Lemma after_slicing_events audio_file temp_dir i start_ms end_ms w :
  events (after_slicing audio_file temp_dir i start_ms end_ms w)
  = (events w ++ slicing_events audio_file temp_dir i start_ms end_ms w)%list.
Proof.
  unfold after_slicing, slicing_events.
  destruct (fs w !! segment_wav temp_dir i); [rewrite app_nil_r; reflexivity|].
  unfold cut_audio_segment.
  destruct (run_ffmpeg_cut w audio_file (start_ms / 1000) ((end_ms - start_ms) / 1000)
              (segment_wav temp_dir i)); reflexivity.
Qed.

Lemma process_segment_transcribes audio_file temp_dir language model i start_ms end_ms st w :
  check_segment_completed i temp_dir (fs w) = false ->
  slice_available audio_file temp_dir i start_ms end_ms w ->
  process_segment audio_file temp_dir language model i start_ms end_ms st w
  = let r := transcribe_with_whisper (segment_wav temp_dir i) language model temp_dir
               default_max_retries
               (after_slicing audio_file temp_dir i start_ms end_ms w) in
    (fst r, Some (tallied st i start_ms end_ms (snd r))).
Proof.
  intros Hcheck Hslice. unfold process_segment, slice_available, after_slicing in *.
  rewrite Hcheck. cbv zeta.
  destruct (fs w !! segment_wav temp_dir i).
  - destruct (transcribe_with_whisper _ _ _ _ _ w) as [w2 r]. cbn [fst snd].
    unfold tallied. destruct (segments r); reflexivity.
  - destruct (cut_audio_segment audio_file start_ms end_ms (segment_wav temp_dir i) w)
      as [w1 ok]. cbn [fst snd] in *. subst ok.
    destruct (transcribe_with_whisper _ _ _ _ _ w1) as [w2 r]. cbn [fst snd].
    unfold tallied. destruct (segments r); reflexivity.
Qed.

Lemma process_segment_returns audio_file temp_dir language model i start_ms end_ms st w :
  (forall w' a s d o, fst (run_ffmpeg_cut w' a s d o) = true) ->
  exists w' st',
    process_segment audio_file temp_dir language model i start_ms end_ms st w
    = (w', Some st') /\
    length (all_segments st') = S (length (all_segments st)).
Proof.
  intros Hcut. destruct (check_segment_completed i temp_dir (fs w)) eqn:Hcheck.
  - unfold process_segment. rewrite Hcheck. eexists _, _. split; [reflexivity|].
    cbn. rewrite length_app. cbn. lia.
  - rewrite process_segment_transcribes; [| exact Hcheck |].
    + cbv zeta. eexists _, _. split; [reflexivity|].
      unfold tallied, record_result.
      destruct (segments _); cbn; rewrite length_app; cbn; lia.
    + unfold slice_available. destruct (fs w !! segment_wav temp_dir i); [exact I|].
      unfold cut_audio_segment.
      specialize (Hcut w audio_file (start_ms / 1000) ((end_ms - start_ms) / 1000)
                    (segment_wav temp_dir i)).
      destruct (run_ffmpeg_cut w audio_file (start_ms / 1000)
                  ((end_ms - start_ms) / 1000) (segment_wav temp_dir i)).
      exact Hcut.
Qed.

Lemma main_loop_returns audio_file temp_dir language model continuous_segments :
  (forall w' a s d o, fst (run_ffmpeg_cut w' a s d o) = true) ->
  forall i st w, exists w' st',
    main_loop audio_file temp_dir language model i continuous_segments st w
    = (w', Some st') /\
    length (all_segments st')
    = (length (all_segments st) + length continuous_segments)%nat.
Proof.
  intros Hcut.
  induction continuous_segments as [|[start_ms end_ms] rest IH]; intros i st w.
  - exists w, st. cbn. split; [reflexivity|lia].
  - cbn [main_loop].
    destruct (process_segment_returns audio_file temp_dir language model i
                start_ms end_ms st w Hcut) as (w1 & st1 & -> & Hlen).
    destruct (IH (S i) st1 w1) as (w2 & st2 & -> & Hlen2).
    exists w2, st2. split; [reflexivity|]. cbn [length]. lia.
Qed.

(** ** The claims about the driver *)

(** C2.  The completion check for index [i] is true exactly when the
    per-index result file exists and is not empty.  When it is true as
    the driver reaches [i], the driver takes the stored transcript, adds
    one to the skipped count and leaves the world as it is: neither the
    slicer nor the transcription engine is called. *)
Theorem completed_segment_is_skipped :
  forall audio_file temp_dir language model i start_ms end_ms st w,
    (check_segment_completed i temp_dir (fs w) = true <->
     exists content, fs w !! segment_json temp_dir i = Some content /\
                     (0 < String.length content)%nat) /\
    (check_segment_completed i temp_dir (fs w) = true ->
     let st' :=
       DriverState
         (all_segments st
          ++ [SegInfo i start_ms end_ms (load_existing_result i temp_dir (fs w))])
         (completed_count st) (S (skipped_count st)) (failed_count st) in
     process_segment audio_file temp_dir language model i start_ms end_ms st w
     = (w, Some st') /\
     events (fst (process_segment audio_file temp_dir language model i
                    start_ms end_ms st w)) = events w /\
     (forall content result,
         fs w !! segment_json temp_dir i = Some content ->
         json_load content = Some (JDict result) ->
         load_existing_result i temp_dir (fs w) = result) /\
     (forall rest,
         main_loop audio_file temp_dir language model i
                   ((start_ms, end_ms) :: rest) st w
         = main_loop audio_file temp_dir language model (S i) rest st' w)).
Proof.
  intros audio_file temp_dir language model i start_ms end_ms st w. split.
  - unfold check_segment_completed.
    destruct (fs w !! segment_json temp_dir i) as [content|].
    + rewrite Nat.ltb_lt. split.
      * intros H. exists content. auto.
      * intros (c & [= <-] & H). exact H.
    + split; [discriminate|]. intros (c & [=] & _).
  - intros Hcheck st'.
    assert (Hstep : process_segment audio_file temp_dir language model i
                      start_ms end_ms st w = (w, Some st'))
      by (unfold process_segment; rewrite Hcheck; reflexivity).
    split; [exact Hstep|]. split; [rewrite Hstep; reflexivity|]. split.
    + intros content result Hfile Hload. unfold load_existing_result.
      rewrite Hfile, Hload. reflexivity.
    + intros rest. cbn [main_loop]. rewrite Hstep. reflexivity.
Qed.

(** C3.  When every attempt fails, [transcribe_with_whisper] calls the
    engine exactly [max_retries] times, sleeps 5 seconds between
    consecutive attempts and returns the empty transcript.  In the driver,
    whose bound is the default 3, such a segment is recorded with an empty
    transcript, adds nothing to the subtitle text, adds one to the failed
    count, and the loop goes on with the next segment; whatever the engine
    does, the loop ends normally as long as the slicer does not fail. *)
Theorem retries_exhausted :
  (forall audio_file language model output_dir max_retries w,
      fails_throughout (seq 0 max_retries) max_retries
        audio_file language model output_dir w ->
      let ev := whisper_event audio_file language model output_dir in
      let r := transcribe_with_whisper audio_file language model output_dir
                 max_retries w in
      snd r = empty_result /\
      events (fst r) = (events w ++ failed_attempt_events ev max_retries)%list /\
      engine_calls (failed_attempt_events ev max_retries) = max_retries /\
      sleeps (failed_attempt_events ev max_retries) = repeat 5%Z (max_retries - 1)) /\
  (forall audio_file temp_dir language model i start_ms end_ms rest st w,
      check_segment_completed i temp_dir (fs w) = false ->
      slice_available audio_file temp_dir i start_ms end_ms w ->
      fails_throughout (seq 0 default_max_retries) default_max_retries
        (segment_wav temp_dir i) language model temp_dir
        (after_slicing audio_file temp_dir i start_ms end_ms w) ->
      let ev := whisper_event (segment_wav temp_dir i) language model temp_dir in
      let st' :=
        DriverState (all_segments st ++ [SegInfo i start_ms end_ms empty_result])
                    (completed_count st) (skipped_count st) (S (failed_count st)) in
      default_max_retries = 3%nat /\
      generate_srt (all_segments st') = generate_srt (all_segments st) /\
      exists w',
        process_segment audio_file temp_dir language model i start_ms end_ms st w
        = (w', Some st') /\
        events w'
        = (events w ++ slicing_events audio_file temp_dir i start_ms end_ms w
           ++ [ev; Sleep 5; ev; Sleep 5; ev])%list /\
        main_loop audio_file temp_dir language model i
                  ((start_ms, end_ms) :: rest) st w
        = main_loop audio_file temp_dir language model (S i) rest st' w') /\
  ((forall w a s d o, fst (run_ffmpeg_cut w a s d o) = true) ->
   forall audio_file temp_dir language model continuous_segments i st w,
   exists w' st',
     main_loop audio_file temp_dir language model i continuous_segments st w
     = (w', Some st') /\
     length (all_segments st')
     = (length (all_segments st) + length continuous_segments)%nat).
Proof.
  split; [|split].
  - intros audio_file language model output_dir max_retries w Hfail ev r.
    destruct (transcribe_attempts_fail audio_file language model output_dir
                max_retries max_retries 0 w eq_refl Hfail) as [Hres Hev].
    split; [exact Hres|]. split; [exact Hev|]. split.
    + apply engine_calls_failed.
    + apply sleeps_failed. intros s. discriminate.
  - intros audio_file temp_dir language model i start_ms end_ms rest st w
           Hcheck Hslice Hfail ev st'.
    split; [reflexivity|]. split; [apply SrtFacts.generate_srt_empty_segment|].
    destruct (transcribe_attempts_fail (segment_wav temp_dir i) language model temp_dir
                default_max_retries default_max_retries 0 _ eq_refl Hfail)
      as [Hres Hev].
    pose proof (process_segment_transcribes audio_file temp_dir language model i
                  start_ms end_ms st w Hcheck Hslice) as Hstep.
    cbv zeta in Hstep. unfold transcribe_with_whisper in Hstep.
    rewrite Hres in Hstep. eexists. split; [exact Hstep|]. split.
    + rewrite Hev, after_slicing_events, <- app_assoc. reflexivity.
    + cbn [main_loop]. rewrite Hstep. reflexivity.
  - intros Hcut audio_file temp_dir language model continuous_segments i st w.
    apply main_loop_returns. exact Hcut.
Qed.

(** C10, amended.  When, as the driver works on segment [i], no engine
    run leaves a non-empty result file for [i], every attempt fails, the
    driver writes nothing (the world is what the slicer and the three
    engine runs left), the segment is recorded as failed with an empty
    transcript, and the completion check for [i] stays false.  Whenever
    the check is false as the driver reaches [i], in a later run as well,
    the engine is called again for [i]; the slicer is called again only
    when the slice file is missing. *)
Theorem failed_segment_stays_unmarked :
  forall audio_file temp_dir language model i start_ms end_ms st w,
    check_segment_completed i temp_dir (fs w) = false ->
    slice_available audio_file temp_dir i start_ms end_ms w ->
    leaves_unmarked i (seq 0 default_max_retries) default_max_retries
      (segment_wav temp_dir i) language model temp_dir
      (after_slicing audio_file temp_dir i start_ms end_ms w) ->
    let w' :=
      engine_runs (seq 0 default_max_retries) default_max_retries
        (segment_wav temp_dir i) language model temp_dir
        (after_slicing audio_file temp_dir i start_ms end_ms w) in
    process_segment audio_file temp_dir language model i start_ms end_ms st w
    = (w', Some (DriverState
                   (all_segments st ++ [SegInfo i start_ms end_ms empty_result])
                   (completed_count st) (skipped_count st) (S (failed_count st)))) /\
    check_segment_completed i temp_dir (fs w') = false /\
    (forall st2 w2,
        check_segment_completed i temp_dir (fs w2) = false ->
        slice_available audio_file temp_dir i start_ms end_ms w2 ->
        exists w3 st3 tail,
          process_segment audio_file temp_dir language model i start_ms end_ms st2 w2
          = (w3, Some st3) /\
          events w3
          = (events w2 ++ slicing_events audio_file temp_dir i start_ms end_ms w2
             ++ whisper_event (segment_wav temp_dir i) language model temp_dir
                :: tail)%list).
Proof.
  intros audio_file temp_dir language model i start_ms end_ms st w
         Hcheck Hslice Hun w'.
  destruct (unmarked_attempts _ _ _ _ _ _ _ Hun) as [Hrun _]. fold w' in Hrun.
  split; [|split].
  - rewrite (process_segment_transcribes _ _ _ _ _ _ _ _ _ Hcheck Hslice).
    cbv zeta. unfold transcribe_with_whisper. rewrite Hrun. reflexivity.
  - subst w'. destruct Hun as [Hfirst Hrest].
    change (seq 0 default_max_retries) with (0 :: seq 1 2)%nat. cbn [engine_runs].
    apply engine_runs_unmarked; [|exact Hrest].
    rewrite after_failure_fs. exact Hfirst.
  - intros st2 w2 Hcheck2 Hslice2.
    rewrite (process_segment_transcribes _ _ _ _ _ _ _ _ _ Hcheck2 Hslice2).
    cbv zeta. unfold transcribe_with_whisper.
    destruct (transcribe_events_extend (segment_wav temp_dir i) language model temp_dir
                default_max_retries (seq 0 default_max_retries)
                (after_slicing audio_file temp_dir i start_ms end_ms w2))
      as (tail & Hev & Hhead).
    destruct (Hhead ltac:(discriminate)) as [tail' ->].
    eexists _, _, tail'. split; [reflexivity|].
    rewrite Hev, after_slicing_events, <- app_assoc. reflexivity.
Qed.

End WithCollaborators.

Local Open Scope Q_scope.

Lemma completed_segment_is_skipped_witness :
  check_segment_completed 0 run_dir (fs resumed_world) = true /\
  process_segment (env := failing_collaborators)
    (path_join run_dir "extracted_audio.wav") run_dir None "base"
    0 0 1000 initial_state resumed_world
  = (resumed_world,
     Some (DriverState [SegInfo 0 0 1000 empty_result] 0 1 0)).
Proof.
  assert (H : check_segment_completed 0 run_dir (fs resumed_world) = true)
    by (vm_compute; reflexivity).
  split; [exact H|].
  exact (proj1 (proj2 (completed_segment_is_skipped (env := failing_collaborators)
                         (path_join run_dir "extracted_audio.wav") run_dir None "base"
                         0 0 1000 initial_state resumed_world) H)).
Defined.

Lemma retries_exhausted_witness :
  fails_throughout (env := failing_collaborators) (seq 0 3) 3
    (segment_wav run_dir 0) None "base" run_dir empty_world /\
  events (fst (transcribe_with_whisper (env := failing_collaborators)
                 (segment_wav run_dir 0) None "base" run_dir 3 empty_world))
  = [Whisper (segment_wav run_dir 0) None "base" run_dir; Sleep 5;
     Whisper (segment_wav run_dir 0) None "base" run_dir; Sleep 5;
     Whisper (segment_wav run_dir 0) None "base" run_dir].
Proof.
  assert (H : fails_throughout (env := failing_collaborators) (seq 0 3) 3
                (segment_wav run_dir 0) None "base" run_dir empty_world)
    by (vm_compute; auto).
  split; [exact H|].
  exact (proj1 (proj2 (proj1 (retries_exhausted (env := failing_collaborators))
                         (segment_wav run_dir 0) None "base" run_dir 3%nat
                         empty_world H))).
Defined.

Lemma failed_segment_stays_unmarked_witness :
  check_segment_completed 0 run_dir (fs empty_world) = false /\
  check_segment_completed 0 run_dir
    (fs (fst (process_segment (env := failing_collaborators)
                (path_join run_dir "extracted_audio.wav") run_dir None "base"
                0 0 1000 initial_state empty_world))) = false.
Proof.
  assert (Hcheck : check_segment_completed 0 run_dir (fs empty_world) = false)
    by (vm_compute; reflexivity).
  assert (Hslice : slice_available (env := failing_collaborators)
                     (path_join run_dir "extracted_audio.wav") run_dir 0 0 1000
                     empty_world)
    by (vm_compute; reflexivity).
  assert (Hun : leaves_unmarked (env := failing_collaborators) 0
                  (seq 0 default_max_retries) default_max_retries
                  (segment_wav run_dir 0) None "base" run_dir
                  (after_slicing (env := failing_collaborators)
                     (path_join run_dir "extracted_audio.wav") run_dir 0 0 1000
                     empty_world))
    by (vm_compute; auto).
  split; [exact Hcheck|].
  destruct (failed_segment_stays_unmarked (env := failing_collaborators)
              (path_join run_dir "extracted_audio.wav") run_dir None "base"
              0 0 1000 initial_state empty_world Hcheck Hslice Hun)
    as (Hstep & Hstay & _).
  rewrite Hstep. exact Hstay.
Defined.

(** C10, as stated, fails.  An engine whose every run leaves an
    unreadable, non-empty output file exhausts the retries, and the file it
    left makes the completion check true: the next run skips the segment
    without calling the engine.  And after an engine that fails without
    writing, the next run transcribes again but does not slice again,
    because the slice file is there. *)
Lemma failed_segment_marked_by_engine_output :
  (snd (run garbage_collaborators empty_world)
   = Some (DriverState [SegInfo 0 0 1000 empty_result] 0 0 1) /\
   engine_calls (events (fst (run garbage_collaborators empty_world))) = 3%nat /\
   check_segment_completed 0 run_dir
     (fs (fst (run garbage_collaborators empty_world))) = true /\
   rerun garbage_collaborators (fst (run garbage_collaborators empty_world))
   = (World (fs (fst (run garbage_collaborators empty_world))) [],
      Some (DriverState [SegInfo 0 0 1000 empty_result] 0 1 0))) /\
  (snd (run failing_collaborators empty_world)
   = Some (DriverState [SegInfo 0 0 1000 empty_result] 0 0 1) /\
   events (fst (rerun failing_collaborators
                  (fst (run failing_collaborators empty_world))))
   = [Whisper (segment_wav run_dir 0) None "base" run_dir; Sleep 5;
      Whisper (segment_wav run_dir 0) None "base" run_dir; Sleep 5;
      Whisper (segment_wav run_dir 0) None "base" run_dir]).
Proof.
  split; [split; [|split; [|split]]|split]; vm_compute; reflexivity.
Qed.

End DriverFacts.

(* ===================================================================== *)
(** * Further facts about the interval merger *)
(* ===================================================================== *)

Module MergerMore.
Import Merger Regions MergerFacts.
Local Open Scope Q_scope.

Lemma sweep_length t rest : forall cs ce,
  (1 <= length (reference_sweep t cs ce rest) <= S (length rest))%nat.
Proof.
  induction rest as [|[ns ne] rest IH]; intros cs ce; cbn [reference_sweep length].
  - lia.
  - destruct (Qltb (ns - ce) t).
    + specialize (IH cs (Qmax ce ne)). lia.
    + specialize (IH ns ne). cbn [length]. lia.
Qed.

Lemma Qmax_either (a b : Q) : Qmax a b = a \/ Qmax a b = b.
Proof.
  rewrite <- py_max_Qmax. unfold py_max. destruct (Qltb a b); auto.
Qed.

Lemma sweep_endpoints t rest : forall cs ce o,
  In o (reference_sweep t cs ce rest) ->
  In (fst o) (cs :: map fst rest) /\ In (snd o) (ce :: map snd rest).
Proof.
  induction rest as [|[ns ne] rest IH]; intros cs ce o; cbn [reference_sweep].
  - intros [<-|[]]. cbn. auto.
  - destruct (Qltb (ns - ce) t).
    + intros Hin. destruct (IH _ _ _ Hin) as [Hs He]. cbn [map fst snd]. split.
      * destruct Hs as [Hs|Hs]; [left; exact Hs|right; right; exact Hs].
      * destruct He as [He|He]; [|right; right; exact He].
        destruct (Qmax_either ce ne) as [Hm|Hm]; rewrite Hm in He;
          [left|right; left]; exact He.
    + intros [<-|Hin]; [cbn; auto|].
      destruct (IH _ _ _ Hin) as [Hs He]. cbn [map fst snd]. split; right; assumption.
Qed.

Lemma separated_adjacent t out : forall s e i a b,
  separated_from t s e out ->
  nth_error ((s, e) :: out) i = Some a ->
  nth_error ((s, e) :: out) (S i) = Some b ->
  fst a <= fst b /\ t <= fst b - snd a.
Proof.
  induction out as [|[xs xe] out IH]; intros s e i a b Hsep Ha Hb.
  - destruct i; discriminate.
  - destruct Hsep as (Hle & Hgap & Hrest). cbn [fst snd] in *.
    destruct i as [|i].
    + injection Ha as <-. injection Hb as <-. cbn [fst snd].
      apply Qltb_ge in Hgap. auto.
    + apply (IH xs xe i a b Hrest); assumption.
Qed.


(** X2.  Merging never adds intervals and never loses all of them: the
    output of a non-empty input has between one and as many intervals as
    the input. *)
Theorem merge_length_bounds :
  forall segments silence_threshold_sec,
    segments <> [] ->
    (1 <= length (merge_speech_segments_from_tuples segments silence_threshold_sec)
     <= length segments)%nat.
Proof.
  intros l t Hne. rewrite merge_eq_reference. unfold reference_merge.
  pose proof (Permutation_length (sorted_perm l)) as Hlen.
  destruct l as [|x l]; [congruence|].
  pose proof (sorted_cons_nonempty x l) as Hs.
  destruct (sorted (x :: l)) as [|[s e] rest]; [congruence|].
  pose proof (sweep_length (t * 1000) rest s e) as Hb.
  rewrite Hlen. cbn [length] in *. lia.
Qed.

Lemma merge_length_bounds_witness :
  (1 <= length (merge_speech_segments_from_tuples [(0, 1); (5000, 6000)]%Q 2%Q)
   <= length [(0, 1); (5000, 6000)]%Q)%nat.
Proof.
  apply (merge_length_bounds [(0, 1); (5000, 6000)] 2). discriminate.
Defined.

Lemma merge_endpoints l t :
  Forall (fun o => In (fst o) (map fst l) /\ In (snd o) (map snd l))
         (merge_speech_segments_from_tuples l t).
Proof.
  rewrite merge_eq_reference. unfold reference_merge.
  pose proof (sorted_perm l) as Hp.
  destruct (sorted l) as [|[s e] rest]; [constructor|].
  apply List.Forall_forall. intros o Hin.
  destruct (sweep_endpoints _ _ _ _ _ Hin) as [Hs He]. split.
  - apply (Permutation_in _ (Permutation_sym (Permutation_map fst Hp))). exact Hs.
  - apply (Permutation_in _ (Permutation_sym (Permutation_map snd Hp))). exact He.
Qed.

(** X3.  Merging invents no time: every output start is the start of an
    input interval and every output end is the end of an input interval. *)
Theorem merge_endpoints_from_input :
  forall segments silence_threshold_sec,
    Forall (fun o => In (fst o) (map fst segments) /\ In (snd o) (map snd segments))
           (merge_speech_segments_from_tuples segments silence_threshold_sec).
Proof.
  intros l t. apply merge_endpoints.
Qed.



End MergerMore.

(* ===================================================================== *)
(** * Facts about the silence regions *)
(* ===================================================================== *)

Module RegionsFacts.
Import Merger Regions MergerFacts.
Local Open Scope Q_scope.

Lemma silence_iteration_nth pre x y rest acc :
  silence_iteration (pre ++ x :: y :: rest) acc (length pre)
  = if Qltb (snd x) (fst y) then acc ++ [(snd x, fst y)] else acc.
Proof.
  unfold silence_iteration.
  rewrite app_nth2 by lia. rewrite Nat.sub_diag.
  rewrite app_nth2 by lia.
  replace (length pre + 1 - length pre)%nat with 1%nat by lia. reflexivity.
Qed.

Lemma fold_silence rest : forall pre x acc,
  fold_left (silence_iteration (pre ++ x :: rest)) (seq (length pre) (length rest)) acc
  = acc ++ gaps (x :: rest).
Proof.
  induction rest as [|y rest IH]; intros pre x acc.
  - cbn. rewrite app_nil_r. reflexivity.
  - cbn [length seq fold_left]. rewrite silence_iteration_nth.
    specialize (IH (pre ++ [x]) y).
    rewrite <- app_assoc in IH. cbn [app] in IH.
    rewrite length_app in IH. cbn [length] in IH. rewrite Nat.add_1_r in IH.
    rewrite IH. cbn [gaps].
    destruct (Qltb (snd x) (fst y)); [rewrite <- app_assoc|]; reflexivity.
Qed.

Lemma nth_final (rest : list segment) : forall a d,
  nth (length rest) (a :: rest) d = List.last (a :: rest) d.
Proof.
  induction rest as [|b rest IH]; intros a d; [reflexivity|].
  change (nth (length rest) (b :: rest) d = List.last (b :: rest) d). apply IH.
Qed.

(** [get_silence_regions] on a non-empty list: the region before the
    first segment, the gaps, the region after the last segment. *)
Lemma get_silence_regions_closed a rest audio_length_ms :
  get_silence_regions (a :: rest) audio_length_ms
  = (if Qltb 0 (fst a) then [(0, fst a)] else [])
    ++ gaps (a :: rest)
    ++ (if Qltb (snd (List.last (a :: rest) (0, 0))) audio_length_ms
        then [(snd (List.last (a :: rest) (0, 0)), audio_length_ms)] else []).
Proof.
  unfold get_silence_regions. cbv zeta.
  replace (length (a :: rest) - 1)%nat with (length rest) by (cbn [length]; lia).
  rewrite nth_final. cbn [nth].
  rewrite (fold_silence rest [] a). cbn [app].
  destruct (Qltb (snd (List.last (a :: rest) (0, 0))) audio_length_ms);
    rewrite ?app_nil_r, <- ?app_assoc; reflexivity.
Qed.

Lemma covers_app l1 l2 x : covers (l1 ++ l2) x <-> covers l1 x \/ covers l2 x.
Proof.
  unfold covers. split.
  - intros (s & Hin & Hx). apply in_app_or in Hin as [Hin|Hin]; [left|right];
      exists s; auto.
  - intros [(s & Hin & Hx)|(s & Hin & Hx)]; exists s; split; auto;
      apply in_or_app; auto.
Qed.

Lemma chain_covers rest : forall a x,
  fst a <= x ->
  covers (a :: rest) x \/ covers (gaps (a :: rest)) x \/
  snd (List.last (a :: rest) (0, 0)) <= x.
Proof.
  induction rest as [|b rest IH]; intros a x Hx.
  - cbn [List.last]. destruct (Qlt_le_dec x (snd a)) as [Hlt|Hge].
    + left. exists a. cbn. auto.
    + right. right. exact Hge.
  - destruct (Qlt_le_dec x (snd a)) as [Hlt|Hge]; [left; exists a; cbn; auto|].
    destruct (Qlt_le_dec x (fst b)) as [Hltb|Hgeb].
    + right. left. cbn [gaps].
      assert (E : Qltb (snd a) (fst b) = true) by (apply Qltb_lt; lra).
      rewrite E. exists (snd a, fst b). cbn. auto.
    + destruct (IH b x Hgeb) as [Hc|[Hc|Hc]].
      * left. apply covers_cons. right. exact Hc.
      * right. left. cbn [gaps]. apply covers_app. right. exact Hc.
      * right. right. exact Hc.
Qed.

Lemma gaps_nonempty l : Forall (fun r => fst r < snd r) (gaps l).
Proof.
  induction l as [|a l IH]; [constructor|].
  cbn [gaps]. destruct l as [|b l]; [constructor|].
  apply Forall_app. split; [|exact IH].
  destruct (Qltb (snd a) (fst b)) eqn:E; [|constructor].
  constructor; [|constructor]. apply Qltb_lt in E. exact E.
Qed.

Lemma ordered_lower l : forall a,
  ordered_disjoint (a :: l) -> forall s, In s (a :: l) -> fst a <= fst s.
Proof.
  induction l as [|b l IH]; intros a Hord s Hin.
  - destruct Hin as [<-|[]]. apply Qle_refl.
  - destruct Hin as [<-|Hin]; [apply Qle_refl|].
    destruct Hord as (Ha & Hab & Hrest).
    pose proof (IH b Hrest s Hin). lra.
Qed.

Lemma ordered_upper l : forall a,
  ordered_disjoint (a :: l) ->
  forall s, In s (a :: l) -> snd s <= snd (List.last (a :: l) (0, 0)).
Proof.
  induction l as [|b l IH]; intros a Hord s Hin.
  - destruct Hin as [<-|[]]. apply Qle_refl.
  - destruct Hord as (Ha & Hab & Hrest).
    change (List.last (a :: b :: l) (0, 0)) with (List.last (b :: l) (0, 0)).
    destruct Hin as [<-|Hin]; [|apply (IH b Hrest s Hin)].
    pose proof (IH b Hrest b (or_introl eq_refl)) as Hb.
    destruct Hrest as (Hbb & _). lra.
Qed.

Lemma gaps_lower l : forall a,
  ordered_disjoint (a :: l) -> forall r, In r (gaps (a :: l)) -> snd a <= fst r.
Proof.
  induction l as [|b l IH]; intros a Hord r Hin; [destruct Hin|].
  destruct Hord as (Ha & Hab & Hrest). cbn [gaps] in Hin.
  apply in_app_or in Hin as [Hin|Hin].
  - destruct (Qltb (snd a) (fst b)); [|destruct Hin].
    destruct Hin as [<-|[]]. apply Qle_refl.
  - pose proof (IH b Hrest r Hin). destruct Hrest as (Hbb & _). lra.
Qed.

Lemma gaps_disjoint l : forall a,
  ordered_disjoint (a :: l) ->
  forall r s, In r (gaps (a :: l)) -> In s (a :: l) -> ~ overlap r s.
Proof.
  induction l as [|b l IH]; intros a Hord r s Hr Hs; [destruct Hr|].
  pose proof Hord as (Ha & Hab & Hrest). cbn [gaps] in Hr.
  apply in_app_or in Hr as [Hr|Hr].
  - destruct (Qltb (snd a) (fst b)); [|destruct Hr].
    destruct Hr as [<-|[]]. cbn [fst snd].
    intros (x & [Hx1 Hx2] & [Hx3 Hx4]). cbn [fst snd] in *.
    destruct Hs as [<-|Hs]; [lra|].
    pose proof (ordered_lower l b Hrest s Hs). lra.
  - destruct Hs as [<-|Hs]; [|apply (IH b Hrest r s Hr Hs)].
    pose proof (gaps_lower l b Hrest r Hr) as Hlow. destruct Hrest as (Hbb & _).
    intros (x & [Hx1 Hx2] & [Hx3 Hx4]). lra.
Qed.

(** X6.  Speech and silence leave no hole: every instant from 0 up to,
    not including, the audio length lies in a speech segment or in a
    silence region, whatever the order of the speech segments. *)
Theorem silence_fills_the_rest :
  forall speech_segments audio_length_ms x,
    0 <= x -> x < audio_length_ms ->
    covers speech_segments x \/
    covers (get_silence_regions speech_segments audio_length_ms) x.
Proof.
  intros l L x Hlo Hhi. destruct l as [|a rest].
  - right. exists (0, L). cbn. auto.
  - rewrite get_silence_regions_closed.
    destruct (Qlt_le_dec x (fst a)) as [Hlt|Hge].
    + right. apply covers_app. left.
      assert (E : Qltb 0 (fst a) = true) by (apply Qltb_lt; lra).
      rewrite E. exists (0, fst a). cbn. auto.
    + destruct (chain_covers rest a x Hge) as [Hc|[Hc|Hc]]; [left; exact Hc| |].
      * right. apply covers_app. right. apply covers_app. left. exact Hc.
      * right. apply covers_app. right. apply covers_app. right.
        assert (E : Qltb (snd (List.last (a :: rest) (0, 0))) L = true)
          by (apply Qltb_lt; lra).
        rewrite E. eexists. split; [left; reflexivity|]. cbn. auto.
Qed.

Lemma silence_fills_the_rest_witness :
  covers [(1000, 2000); (5000, 6000)] 3000 \/
  covers (get_silence_regions [(1000, 2000); (5000, 6000)] 10000) 3000.
Proof.
  apply (silence_fills_the_rest [(1000, 2000); (5000, 6000)] 10000 3000);
    [discriminate|reflexivity].
Defined.

(** X7.  Without speech the whole audio is one silence region; with
    speech every silence region returned has a positive length. *)
Theorem silence_regions_not_empty :
  forall speech_segments audio_length_ms,
    get_silence_regions [] audio_length_ms = [(0, audio_length_ms)] /\
    (speech_segments <> [] ->
     Forall (fun r => fst r < snd r)
            (get_silence_regions speech_segments audio_length_ms)).
Proof.
  intros l L. split; [reflexivity|]. intros Hne.
  destruct l as [|a rest]; [congruence|].
  rewrite get_silence_regions_closed. apply Forall_app. split; [|apply Forall_app; split].
  - destruct (Qltb 0 (fst a)) eqn:E; [|constructor].
    constructor; [|constructor]. apply Qltb_lt in E. exact E.
  - apply gaps_nonempty.
  - destruct (Qltb (snd (List.last (a :: rest) (0, 0))) L) eqn:E; [|constructor].
    constructor; [|constructor]. apply Qltb_lt in E. exact E.
Qed.

Lemma silence_regions_not_empty_witness :
  Forall (fun r => fst r < snd r)
         (get_silence_regions [(1000, 2000); (1500, 6000)] 10000).
Proof.
  apply (proj2 (silence_regions_not_empty [(1000, 2000); (1500, 6000)] 10000)).
  discriminate.
Defined.

(** X8.  When the speech segments are in order and do not overlap (each
    ends no earlier than it starts and no later than the next starts), no
    silence region shares an instant with a speech segment. *)
Theorem silence_disjoint_from_speech :
  forall speech_segments audio_length_ms r s,
    ordered_disjoint speech_segments ->
    In r (get_silence_regions speech_segments audio_length_ms) ->
    In s speech_segments ->
    ~ overlap r s.
Proof.
  intros l L r s Hord Hr Hs. destruct l as [|a rest]; [destruct Hs|].
  rewrite get_silence_regions_closed in Hr.
  apply in_app_or in Hr as [Hr|Hr]; [|apply in_app_or in Hr as [Hr|Hr]].
  - destruct (Qltb 0 (fst a)); [|destruct Hr]. destruct Hr as [<-|[]].
    pose proof (ordered_lower rest a Hord s Hs).
    intros (x & [Hx1 Hx2] & [Hx3 Hx4]). cbn [fst snd] in *. lra.
  - apply (gaps_disjoint rest a Hord r s Hr Hs).
  - destruct (Qltb (snd (List.last (a :: rest) (0, 0))) L); [|destruct Hr].
    destruct Hr as [<-|[]].
    pose proof (ordered_upper rest a Hord s Hs).
    intros (x & [Hx1 Hx2] & [Hx3 Hx4]). cbn [fst snd] in *. lra.
Qed.

Lemma silence_disjoint_from_speech_witness :
  ~ overlap (2000, 5000) (5000, 6000).
Proof.
  apply (silence_disjoint_from_speech [(1000, 2000); (5000, 6000)] 10000).
  - cbn. repeat split; discriminate.
  - vm_compute. auto.
  - right. left. reflexivity.
Defined.

End RegionsFacts.

(* ===================================================================== *)
(** * Further facts about the SRT text *)
(* ===================================================================== *)

Module SrtMore.
Import Srt SrtFacts.
Local Open Scope Q_scope.

(** ** Time stamps *)

Lemma srt_time_general (ms : Q) :
  let t := Qfloor ms in
  milliseconds_to_srt_time ms
  = format_0d 2 (t / 3600000)
    ++ [58%N; digit ((t / 60000) mod 60 / 10); digit ((t / 60000) mod 60 mod 10); 58%N;
        digit ((t / 1000) mod 60 / 10); digit ((t / 1000) mod 60 mod 10); 44%N;
        digit (t mod 1000 / 100); digit (t mod 1000 / 10 mod 10);
        digit (t mod 1000 mod 10)].
Proof.
  intros t. unfold milliseconds_to_srt_time, floordiv.
  change 3600000 with (inject_Z 3600000).
  change 60000 with (inject_Z 60000).
  change 1000 with (inject_Z 1000).
  rewrite !py_int_Z, !Qfloor_div_pos, !Qfloor_pymod.
  rewrite py_int_floor by (rewrite !Qfloor_pymod; apply Z.mod_pos_bound; lia).
  rewrite !Qfloor_pymod. fold t.
  assert (Hm : ((t mod 3600000) / 60000 = (t / 60000) mod 60)%Z)
    by (Z.to_euclidean_division_equations; lia).
  assert (Hs : (((t mod 3600000) mod 60000) / 1000 = (t / 1000) mod 60)%Z)
    by (Z.to_euclidean_division_equations; lia).
  assert (Hk : (((t mod 3600000) mod 60000) mod 1000 = t mod 1000)%Z)
    by (Z.to_euclidean_division_equations; lia).
  rewrite Hm, Hs, Hk.
  rewrite (format_0d_two ((t / 60000) mod 60))
    by (Z.to_euclidean_division_equations; lia).
  rewrite (format_0d_two ((t / 1000) mod 60))
    by (Z.to_euclidean_division_equations; lia).
  rewrite format_0d_three by (apply Z.mod_pos_bound; lia).
  reflexivity.
Qed.

Lemma digit_inj (x y : Z) : (0 <= x)%Z -> (0 <= y)%Z -> digit x = digit y -> x = y.
Proof.
  unfold digit. intros Hx Hy H. apply N.add_cancel_l in H.
  apply Z2N.inj; assumption.
Qed.

Lemma floor_in_range (ms : Q) :
  0 <= ms -> ms < 360000000 -> (0 <= Qfloor ms < 360000000)%Z.
Proof.
  intros Hlo Hhi. split.
  - change 0%Z with (Qfloor 0). apply Qfloor_resp_le. exact Hlo.
  - rewrite Zlt_Qlt. apply Qle_lt_trans with ms; [apply Qfloor_le|exact Hhi].
Qed.

(** X10.  Below 100 hours the stamp keeps exactly the whole millisecond:
    two times get the same stamp if and only if they round down to the
    same millisecond. *)
Theorem srt_time_injective_on_milliseconds :
  forall a b,
    0 <= a -> a < 360000000 -> 0 <= b -> b < 360000000 ->
    (milliseconds_to_srt_time a = milliseconds_to_srt_time b <->
     Qfloor a = Qfloor b).
Proof.
  intros a b Ha1 Ha2 Hb1 Hb2. split.
  - intros H.
    rewrite (srt_time_fields a Ha1 Ha2), (srt_time_fields b Hb1 Hb2) in H.
    pose proof (floor_in_range a Ha1 Ha2) as Ra.
    pose proof (floor_in_range b Hb1 Hb2) as Rb.
    cbv zeta in H. set (t := Qfloor a) in *. set (u := Qfloor b) in *.
    injection H as H1 H2 H3 H4 H5 H6 H7 H8 H9.
    apply digit_inj in H1; [|Z.to_euclidean_division_equations; lia..].
    apply digit_inj in H2; [|Z.to_euclidean_division_equations; lia..].
    apply digit_inj in H3; [|Z.to_euclidean_division_equations; lia..].
    apply digit_inj in H4; [|Z.to_euclidean_division_equations; lia..].
    apply digit_inj in H5; [|Z.to_euclidean_division_equations; lia..].
    apply digit_inj in H6; [|Z.to_euclidean_division_equations; lia..].
    apply digit_inj in H7; [|Z.to_euclidean_division_equations; lia..].
    apply digit_inj in H8; [|Z.to_euclidean_division_equations; lia..].
    apply digit_inj in H9; [|Z.to_euclidean_division_equations; lia..].
    assert (Hh : (t / 3600000 = u / 3600000)%Z)
      by (Z.to_euclidean_division_equations; lia).
    assert (Hm : ((t / 60000) mod 60 = (u / 60000) mod 60)%Z)
      by (Z.to_euclidean_division_equations; lia).
    assert (Hs : ((t / 1000) mod 60 = (u / 1000) mod 60)%Z)
      by (Z.to_euclidean_division_equations; lia).
    assert (Hk : (t mod 1000 = u mod 1000)%Z)
      by (Z.to_euclidean_division_equations; lia).
    clear H1 H2 H3 H4 H5 H6 H7 H8 H9.
    Z.to_euclidean_division_equations; lia.
  - intros H. rewrite (srt_time_general a), (srt_time_general b). cbv zeta.
    rewrite H. reflexivity.
Qed.

Lemma srt_time_injective_on_milliseconds_witness :
  milliseconds_to_srt_time (11500 + (1 # 4)) = milliseconds_to_srt_time (11500 + (3 # 4)).
Proof.
  apply (proj2 (srt_time_injective_on_milliseconds (11500 + (1 # 4)) (11500 + (3 # 4))
                  ltac:(discriminate) ltac:(reflexivity)
                  ltac:(discriminate) ltac:(reflexivity))).
  reflexivity.
Defined.

(** ** Stripping *)

Lemma lstrip_split (s : pystr) :
  exists pre, s = pre ++ lstrip s /\ forallb isspace pre = true.
Proof.
  induction s as [|c s (pre & Hs & Hpre)].
  - exists []. auto.
  - cbn [lstrip]. destruct (isspace c) eqn:E.
    + exists (c :: pre). cbn. rewrite E, Hpre. split; [f_equal; exact Hs|reflexivity].
    + exists []. auto.
Qed.

Lemma lstrip_head (s : pystr) c r : lstrip s = c :: r -> isspace c = false.
Proof.
  induction s as [|x s IH]; cbn [lstrip]; [discriminate|].
  destruct (isspace x) eqn:E; [exact IH|]. intros [= <- _]. exact E.
Qed.

Lemma lstrip_fixed (s : pystr) :
  (forall c r, s = c :: r -> isspace c = false) -> lstrip s = s.
Proof.
  destruct s as [|c s]; [reflexivity|]. intros H. cbn [lstrip].
  rewrite (H c s eq_refl). reflexivity.
Qed.

Lemma forallb_rev (f : N -> bool) (l : list N) : forallb f (rev l) = forallb f l.
Proof.
  induction l as [|x l IH]; [reflexivity|].
  cbn [rev forallb]. rewrite forallb_app, IH. cbn. rewrite andb_true_r.
  apply andb_comm.
Qed.

Lemma rstrip_split (s : pystr) :
  exists post, s = rstrip s ++ post /\ forallb isspace post = true.
Proof.
  destruct (lstrip_split (rev s)) as (pre & Hs & Hpre).
  exists (rev pre). split; [|rewrite forallb_rev; exact Hpre].
  unfold rstrip. rewrite <- rev_app_distr, <- Hs, rev_involutive. reflexivity.
Qed.

Lemma rstrip_last (s : pystr) r c : rstrip s = r ++ [c] -> isspace c = false.
Proof.
  unfold rstrip. intros H.
  apply (f_equal (@rev N)) in H. rewrite rev_involutive, rev_app_distr in H.
  apply (lstrip_head _ _ _ H).
Qed.

Lemma rstrip_fixed (s : pystr) :
  (forall r c, s = r ++ [c] -> isspace c = false) -> rstrip s = s.
Proof.
  intros H. unfold rstrip. rewrite lstrip_fixed; [apply rev_involutive|].
  intros c r Hr. apply (H (rev r) c).
  rewrite <- (rev_involutive s), Hr. reflexivity.
Qed.

Lemma strip_head (s : pystr) c r : strip s = c :: r -> isspace c = false.
Proof.
  unfold strip. intros H.
  destruct (rstrip_split (lstrip s)) as (post & Hs & _).
  rewrite H in Hs. apply (lstrip_head s c (r ++ post)). exact Hs.
Qed.

Lemma strip_last (s : pystr) r c : strip s = r ++ [c] -> isspace c = false.
Proof.
  unfold strip. apply rstrip_last.
Qed.

(** X11.  [strip] removes a run of whitespace at each end and nothing
    else: the text is the stripped text between two runs of whitespace,
    the stripped text neither starts nor ends with whitespace, stripping
    again changes nothing, and the result is empty exactly when the text
    is all whitespace. *)
Theorem strip_removes_outer_whitespace :
  forall s,
    (exists pre post,
        s = pre ++ strip s ++ post /\
        forallb isspace pre = true /\ forallb isspace post = true) /\
    (forall c r, strip s = c :: r -> isspace c = false) /\
    (forall r c, strip s = r ++ [c] -> isspace c = false) /\
    strip (strip s) = strip s /\
    (strip s = [] <-> forallb isspace s = true).
Proof.
  intros s.
  destruct (lstrip_split s) as (pre & Hpre & Hpre_sp).
  destruct (rstrip_split (lstrip s)) as (post & Hpost & Hpost_sp).
  fold (strip s) in Hpost.
  assert (Hsplit : s = pre ++ strip s ++ post) by (rewrite <- Hpost; exact Hpre).
  split; [exists pre, post; auto|].
  split; [apply strip_head|]. split; [apply strip_last|]. split.
  - unfold strip at 1. rewrite (lstrip_fixed (strip s)) by apply strip_head.
    apply rstrip_fixed. apply strip_last.
  - split.
    + intros Hempty. rewrite Hsplit, Hempty, !forallb_app, Hpre_sp, Hpost_sp.
      reflexivity.
    + intros Hall. destruct (strip s) as [|c r] eqn:E; [reflexivity|].
      pose proof (strip_head s c r E) as Hc.
      rewrite Hsplit, !forallb_app in Hall. cbn [forallb] in Hall.
      rewrite Hc, andb_false_r in Hall. cbn in Hall. discriminate.
Qed.

(** ** Cues *)

Lemma number_In l : forall n c,
  In c (number n l) -> exists i p, In p l /\ c = cue_of i p.
Proof.
  induction l as [|p l IH]; intros n c; cbn [number]; [intros []|].
  intros [<-|Hin]; [exists n, p; cbn; auto|].
  destruct (IH _ _ Hin) as (i & q & Hq & ->). exists i, q. cbn. auto.
Qed.

(** ** The text as a whole *)

(** X13.  Appending results appends text: the text for [a ++ b] is the
    text for [a] followed by the blocks of [b], numbered on from the number
    of cues of [a]. *)
Theorem generate_srt_app :
  forall a b,
    generate_srt (a ++ b)
    = generate_srt a
      ++ flat_map render_cue (reassemble_from (1 + length (reassemble a)) b).
Proof.
  intros a b. unfold generate_srt, reassemble.
  rewrite fold_left_app, (write_segments_cues a 1 []).
  rewrite write_segments_cues. reflexivity.
Qed.

Lemma kept_entries_filter results :
  kept_entries (List.filter has_kept results) = kept_entries results.
Proof.
  unfold kept_entries.
  induction results as [|r results IH]; [reflexivity|].
  cbn [List.filter flat_map]. rewrite List.filter_app.
  destruct (has_kept r) eqn:E.
  - cbn [flat_map]. rewrite List.filter_app, IH. reflexivity.
  - rewrite IH.
    assert (Hnone : List.filter (fun p : Q * transcript_entry => kept (snd p))
                      (map (pair (segment_start_ms r)) (segments (whisper_result r)))
                    = []).
    { unfold has_kept in E. induction (segments (whisper_result r)) as [|e es IHe];
        [reflexivity|].
      cbn [existsb] in E. apply orb_false_iff in E as [Ee Ees].
      cbn [map List.filter snd]. rewrite Ee. apply IHe. exact Ees. }
    rewrite Hnone. reflexivity.
Qed.

(** X14.  Results without any kept entry leave no trace: removing them
    from the list changes neither the text nor the numbering. *)
Theorem silent_results_leave_no_trace :
  forall results,
    generate_srt (List.filter has_kept results) = generate_srt results /\
    reassemble (List.filter has_kept results) = reassemble results.
Proof.
  intros results.
  assert (H : reassemble (List.filter has_kept results) = reassemble results).
  { unfold reassemble. rewrite !reassemble_from_closed, kept_entries_filter.
    reflexivity. }
  split; [|exact H]. rewrite !generate_srt_renders, H. reflexivity.
Qed.

(** X15.  The subtitle text is empty exactly when no transcript entry of
    any result has text left after stripping. *)
Theorem generate_srt_empty_iff :
  forall results, generate_srt results = [] <-> kept_entries results = [].
Proof.
  intros results. rewrite generate_srt_renders. unfold reassemble.
  rewrite reassemble_from_closed. split.
  - destruct (kept_entries results) as [|p l]; [reflexivity|].
    cbn [number flat_map]. unfold render_cue at 1.
    destruct (decimal _); discriminate.
  - intros ->. reflexivity.
Qed.

End SrtMore.

(* ===================================================================== *)
(** * Further facts about the driver *)
(* ===================================================================== *)

Module DriverMore.
Import Srt Driver DriverFacts.
Local Open Scope string_scope.
Local Arguments String.append !_ _ / : simpl nomatch.

(** ** File names *)

Lemma append_length (a b : string) :
  String.length (a +:+ b) = (String.length a + String.length b)%nat.
Proof.
  induction a as [|x a IH]; simpl; [reflexivity|]. rewrite IH. reflexivity.
Qed.

Lemma append_cancel_r (c : string) : forall a b, a +:+ c = b +:+ c -> a = b.
Proof.
  induction a as [|x a IH]; intros b H.
  - apply (f_equal String.length) in H. rewrite !append_length in H.
    destruct b; [reflexivity|]. simpl in H. lia.
  - destruct b as [|y b].
    + apply (f_equal String.length) in H. rewrite !append_length in H.
      simpl in H. lia.
    + simpl in H. injection H as -> H. f_equal. apply IH. exact H.
Qed.

Lemma append_cancel_l (c : string) : forall a b, c +:+ a = c +:+ b -> a = b.
Proof.
  induction c as [|x c IH]; intros a b H; simpl in H; [exact H|].
  injection H as H. apply IH. exact H.
Qed.

Lemma uint_of_zeros (k : nat) (s : string) (u : Decimal.uint) :
  NilEmpty.uint_of_string s = Some u ->
  exists u', NilEmpty.uint_of_string (zeros k +:+ s) = Some u' /\
             Nat.of_uint u' = Nat.of_uint u.
Proof.
  intros Hs. induction k as [|k (u' & Hu' & Hval)]; [exists u; auto|].
  exists (Decimal.D0 u'). simpl. rewrite Hu'. split; [reflexivity|].
  rewrite <- Hval. reflexivity.
Qed.

(** The index is read back from its four-digit form. *)
Lemma format_04d_decode (i : nat) :
  option_map Nat.of_uint (NilEmpty.uint_of_string (format_04d i)) = Some i.
Proof.
  unfold format_04d.
  assert (Hs : exists u, NilEmpty.uint_of_string
                           (NilZero.string_of_uint (Nat.to_uint i)) = Some u /\
                         Nat.of_uint u = i).
  { unfold NilZero.string_of_uint. destruct (Nat.to_uint i) eqn:E.
    - exists (Decimal.D0 Decimal.Nil). split; [reflexivity|].
      rewrite <- (DecimalNat.Unsigned.of_to i), E. reflexivity.
    - rewrite <- E, NilEmpty.usu. eexists. split; [reflexivity|].
      apply DecimalNat.Unsigned.of_to.
    - rewrite <- E, NilEmpty.usu. eexists. split; [reflexivity|].
      apply DecimalNat.Unsigned.of_to.
    - rewrite <- E, NilEmpty.usu. eexists. split; [reflexivity|].
      apply DecimalNat.Unsigned.of_to.
    - rewrite <- E, NilEmpty.usu. eexists. split; [reflexivity|].
      apply DecimalNat.Unsigned.of_to.
    - rewrite <- E, NilEmpty.usu. eexists. split; [reflexivity|].
      apply DecimalNat.Unsigned.of_to.
    - rewrite <- E, NilEmpty.usu. eexists. split; [reflexivity|].
      apply DecimalNat.Unsigned.of_to.
    - rewrite <- E, NilEmpty.usu. eexists. split; [reflexivity|].
      apply DecimalNat.Unsigned.of_to.
    - rewrite <- E, NilEmpty.usu. eexists. split; [reflexivity|].
      apply DecimalNat.Unsigned.of_to.
    - rewrite <- E, NilEmpty.usu. eexists. split; [reflexivity|].
      apply DecimalNat.Unsigned.of_to.
    - rewrite <- E, NilEmpty.usu. eexists. split; [reflexivity|].
      apply DecimalNat.Unsigned.of_to. }
  destruct Hs as (u & Hu & Hval).
  destruct (uint_of_zeros (4 - String.length (NilZero.string_of_uint (Nat.to_uint i)))
              _ _ Hu) as (u' & -> & Hval').
  cbn [option_map]. rewrite Hval', Hval. reflexivity.
Qed.

Lemma format_04d_inj (i j : nat) : format_04d i = format_04d j -> i = j.
Proof.
  intros H. pose proof (format_04d_decode i) as Hi. rewrite H, format_04d_decode in Hi.
  congruence.
Qed.

Lemma path_join_inj (d a b : string) :
  String.prefix "/" a = false -> String.prefix "/" b = false ->
  path_join d a = path_join d b -> a = b.
Proof.
  unfold path_join. intros -> ->.
  destruct ((String.length d =? 0)%nat || ends_with_slash d).
  - apply append_cancel_l.
  - intros H. apply append_cancel_l in H. apply append_cancel_l in H. exact H.
Qed.

Lemma last_char_app (a b : string) :
  b <> EmptyString -> last_char (a +:+ b) = last_char b.
Proof.
  intros Hb. induction a as [|x a IH]; [reflexivity|].
  simpl. destruct (a +:+ b) eqn:E; [|exact IH].
  destruct a; simpl in E; [congruence|discriminate].
Qed.

Lemma last_char_path_join (d name : string) :
  name <> EmptyString -> last_char (path_join d name) = last_char name.
Proof.
  intros Hn. unfold path_join.
  destruct (String.prefix "/" name); [reflexivity|].
  destruct ((String.length d =? 0)%nat || ends_with_slash d).
  - apply last_char_app. exact Hn.
  - rewrite last_char_app; [apply (last_char_app "/"); exact Hn|].
    discriminate.
Qed.

Lemma segment_name_no_prefix (i : nat) (ext : string) :
  String.prefix "/" ("segment_" +:+ format_04d i +:+ ext) = false.
Proof. reflexivity. Qed.

(** X16.  File names in the run directory: the file the transcriber reads
    the engine's output from is the result file the completion check
    looks at; different indices have different result files and different
    slice files; and no slice file is a result file. *)
Theorem segment_files_are_distinct :
  forall dir i j,
    whisper_json_file (segment_wav dir i) dir = segment_json dir i /\
    (segment_json dir i = segment_json dir j -> i = j) /\
    (segment_wav dir i = segment_wav dir j -> i = j) /\
    segment_wav dir i <> segment_json dir j.
Proof.
  intros dir i j. split; [apply whisper_json_file_segment|]. split; [|split].
  - unfold segment_json. intros H.
    apply path_join_inj in H; [|apply segment_name_no_prefix..].
    apply append_cancel_l in H. apply append_cancel_r in H.
    apply format_04d_inj. exact H.
  - unfold segment_wav. intros H.
    apply path_join_inj in H; [|apply segment_name_no_prefix..].
    apply append_cancel_l in H. apply append_cancel_r in H.
    apply format_04d_inj. exact H.
  - unfold segment_wav, segment_json. intros H.
    apply (f_equal last_char) in H.
    rewrite !last_char_path_join in H by discriminate.
    rewrite <- !append_assoc3 in H.
    rewrite !last_char_app in H by discriminate.
    discriminate.
Qed.

Section WithCollaborators.
Context {env : Collaborators}.
Local Open Scope Q_scope.

(** ** The retry loop, whatever the engine does *)

Lemma transcribe_attempts_log audio_file language model output_dir max_retries n :
  forall k w,
    (k + n = max_retries)%nat ->
    exists c,
      (c <= n)%nat /\ ((0 < n)%nat -> (1 <= c)%nat) /\
      events (fst (transcribe_attempts (seq k n) max_retries
                     audio_file language model output_dir w))
      = (events w
         ++ failed_attempt_events (whisper_event audio_file language model output_dir) c)%list.
Proof.
  induction n as [|n IH]; intros k w Hk.
  - exists 0%nat. cbn. rewrite app_nil_r. repeat split; lia.
  - cbn [seq transcribe_attempts].
    pose proof (whisper_attempt_events audio_file language model output_dir w) as Hev.
    destruct (whisper_attempt audio_file language model output_dir w) as [w1 [r|]];
      cbn [fst] in Hev |- *.
    + exists 1%nat. rewrite Hev. repeat split; lia.
    + destruct (IH (S k) (after_failure k max_retries w1) ltac:(lia))
        as (c & Hc & Hpos & Hlog).
      exists (S c). split; [lia|]. split; [lia|].
      rewrite Hlog, failed_attempt_events_succ. unfold after_failure.
      replace (k <? max_retries - 1)%nat with (0 <? n)%nat
        by (destruct (Nat.ltb_spec 0 n), (Nat.ltb_spec k (max_retries - 1));
            lia || reflexivity).
      destruct (Nat.ltb_spec 0 n) as [Hn|Hn].
      * assert (Hc1 : (0 <? c)%nat = true) by (apply Nat.ltb_lt; lia).
        rewrite Hc1. cbn [events]. rewrite Hev, <- !app_assoc. reflexivity.
      * assert (c = 0)%nat as -> by lia. cbn [events Nat.ltb Nat.leb].
        rewrite Hev, <- !app_assoc. reflexivity.
Qed.

(** X17.  Whatever the engine does, one call of [transcribe_with_whisper]
    adds to the log [c] engine calls with a sleep of 5 seconds between
    consecutive ones and nothing else, where [c] is at most [max_retries]
    and at least one when [max_retries] is positive; with [max_retries]
    zero it returns the empty transcript without touching anything. *)
Theorem engine_calls_bounded :
  forall audio_file language model output_dir max_retries w,
    let ev := whisper_event audio_file language model output_dir in
    let r := transcribe_with_whisper audio_file language model output_dir
               max_retries w in
    (exists c,
        (c <= max_retries)%nat /\ ((0 < max_retries)%nat -> (1 <= c)%nat) /\
        events (fst r) = (events w ++ failed_attempt_events ev c)%list /\
        engine_calls (failed_attempt_events ev c) = c /\
        sleeps (failed_attempt_events ev c) = repeat 5%Z (c - 1)) /\
    transcribe_with_whisper audio_file language model output_dir 0 w
    = (w, empty_result).
Proof.
  intros audio_file language model output_dir max_retries w ev r.
  split; [|reflexivity].
  destruct (transcribe_attempts_log audio_file language model output_dir
              max_retries max_retries 0 w eq_refl) as (c & Hc & Hpos & Hlog).
  exists c. split; [exact Hc|]. split; [exact Hpos|]. split; [exact Hlog|]. split.
  - apply engine_calls_failed.
  - apply sleeps_failed. intros s. discriminate.
Qed.

(** ** What a returned transcript leaves on disk *)

Lemma whisper_attempt_persists audio_file language model output_dir w w' r :
  whisper_attempt audio_file language model output_dir w = (w', Some r) ->
  fs w' !! whisper_json_file audio_file output_dir = Some (json_dump (JDict r)).
Proof.
  unfold whisper_attempt.
  destruct (run_whisper w audio_file (language_argument language) model output_dir)
    as [ok files].
  destruct ok; [|discriminate].
  destruct (files !! whisper_json_file audio_file output_dir) as [content|];
    [|discriminate].
  destruct (json_load content) as [[result|]|]; [|discriminate..].
  intros [= <- <-]. cbn [fs]. apply lookup_insert_eq.
Qed.

Lemma transcribe_attempts_persists audio_file language model output_dir max_retries
    attempts : forall w,
  let res := transcribe_attempts attempts max_retries
               audio_file language model output_dir w in
  snd res = empty_result \/
  fs (fst res) !! whisper_json_file audio_file output_dir
  = Some (json_dump (JDict (snd res))).
Proof.
  induction attempts as [|a attempts IH]; intros w; cbv zeta; [left; reflexivity|].
  cbn [transcribe_attempts].
  destruct (whisper_attempt audio_file language model output_dir w) as [w1 [r|]] eqn:E.
  - right. cbn [fst snd]. apply (whisper_attempt_persists _ _ _ _ _ _ _ E).
  - apply IH.
Qed.

Lemma process_segment_persists :
  forall audio_file temp_dir language model i start_ms end_ms st w,
    check_segment_completed i temp_dir (fs w) = false ->
    slice_available audio_file temp_dir i start_ms end_ms w ->
    let res := process_segment audio_file temp_dir language model i
                 start_ms end_ms st w in
    let r := snd (transcribe_with_whisper (segment_wav temp_dir i) language model
                    temp_dir default_max_retries
                    (after_slicing audio_file temp_dir i start_ms end_ms w)) in
    segments r <> [] ->
    snd res
    = Some (DriverState (all_segments st ++ [SegInfo i start_ms end_ms r])
                        (S (completed_count st)) (skipped_count st) (failed_count st)) /\
    fs (fst res) !! segment_json temp_dir i = Some (json_dump (JDict r)).
Proof.
  intros audio_file temp_dir language model i start_ms end_ms st w Hcheck Hslice
         res r Hr.
  subst res. rewrite (process_segment_transcribes _ _ _ _ _ _ _ _ _ Hcheck Hslice).
  cbv zeta. fold r. cbn [fst snd]. split.
  - unfold tallied, record_result. destruct (segments r); [congruence|reflexivity].
  - unfold transcribe_with_whisper in *.
    destruct (transcribe_attempts_persists (segment_wav temp_dir i) language model
                temp_dir default_max_retries (seq 0 default_max_retries)
                (after_slicing audio_file temp_dir i start_ms end_ms w)) as [He|Hp].
    + fold r in He. rewrite He in Hr. cbn in Hr. congruence.
    + rewrite whisper_json_file_segment in Hp. exact Hp.
Qed.

(** X18.  A transcript with at least one entry that the driver gets for
    segment [i] is on disk: the result file for [i] holds its JSON text,
    and the segment is counted as newly recognised. *)
Theorem returned_transcript_is_persisted :
  forall audio_file temp_dir language model i start_ms end_ms st w,
    check_segment_completed i temp_dir (fs w) = false ->
    slice_available audio_file temp_dir i start_ms end_ms w ->
    let res := process_segment audio_file temp_dir language model i
                 start_ms end_ms st w in
    let r := snd (transcribe_with_whisper (segment_wav temp_dir i) language model
                    temp_dir default_max_retries
                    (after_slicing audio_file temp_dir i start_ms end_ms w)) in
    segments r <> [] ->
    snd res
    = Some (DriverState (all_segments st ++ [SegInfo i start_ms end_ms r])
                        (S (completed_count st)) (skipped_count st) (failed_count st)) /\
    fs (fst res) !! segment_json temp_dir i = Some (json_dump (JDict r)).
Proof.
  exact process_segment_persists.
Qed.

(** X19.  Resuming: when the driver got a transcript with at least one
    entry for segment [i] and the JSON writer's text for it reads back as
    the same transcript, then in the world it left the completion check
    for [i] is true and working on [i] again changes nothing and calls
    nothing: the same transcript is recorded, as skipped. *)
Theorem completed_segment_resumes :
  forall audio_file temp_dir language model i start_ms end_ms st w,
    check_segment_completed i temp_dir (fs w) = false ->
    slice_available audio_file temp_dir i start_ms end_ms w ->
    let w' := fst (process_segment audio_file temp_dir language model i
                     start_ms end_ms st w) in
    let r := snd (transcribe_with_whisper (segment_wav temp_dir i) language model
                    temp_dir default_max_retries
                    (after_slicing audio_file temp_dir i start_ms end_ms w)) in
    segments r <> [] ->
    json_load (json_dump (JDict r)) = Some (JDict r) ->
    check_segment_completed i temp_dir (fs w') = true /\
    load_existing_result i temp_dir (fs w') = r /\
    forall st2,
      process_segment audio_file temp_dir language model i start_ms end_ms st2 w'
      = (w', Some (DriverState (all_segments st2 ++ [SegInfo i start_ms end_ms r])
                               (completed_count st2) (S (skipped_count st2))
                               (failed_count st2))).
Proof.
  intros audio_file temp_dir language model i start_ms end_ms st w Hcheck Hslice
         w' r Hr Hround.
  destruct (process_segment_persists audio_file temp_dir language model i
              start_ms end_ms st w Hcheck Hslice Hr) as [_ Hfile].
  fold w' in Hfile. fold r in Hfile.
  assert (Hdone : check_segment_completed i temp_dir (fs w') = true).
  { unfold check_segment_completed. rewrite Hfile.
    destruct (json_dump (JDict r)) eqn:E; [|reflexivity].
    rewrite json_load_empty in Hround. discriminate. }
  assert (Hload : load_existing_result i temp_dir (fs w') = r)
    by (unfold load_existing_result; rewrite Hfile, Hround; reflexivity).
  split; [exact Hdone|]. split; [exact Hload|].
  intros st2. unfold process_segment. rewrite Hdone, Hload. reflexivity.
Qed.

(** ** Bookkeeping of the loop *)

Lemma process_segment_records audio_file temp_dir language model i start_ms end_ms
    st w w' st' :
  process_segment audio_file temp_dir language model i start_ms end_ms st w
  = (w', Some st') ->
  map result_key (all_segments st')
  = (map result_key (all_segments st) ++ [(i, start_ms, end_ms)])%list /\
  total_count st' = S (total_count st).
Proof.
  unfold process_segment.
  destruct (check_segment_completed i temp_dir (fs w)).
  - intros [= <- <-]. cbn. rewrite map_app. split; [reflexivity|].
    unfold total_count. cbn. lia.
  - destruct (match fs w !! segment_wav temp_dir i with
              | Some _ => (w, true)
              | None => cut_audio_segment audio_file start_ms end_ms
                          (segment_wav temp_dir i) w
              end) as [w1 ok].
    destruct ok; [|discriminate].
    destruct (transcribe_with_whisper _ _ _ _ _ w1) as [w2 r].
    destruct (segments r); intros [= <- <-]; cbn; rewrite map_app;
      (split; [reflexivity|]); unfold total_count; cbn; lia.
Qed.

(** X20.  When the loop ends normally, the recorded results are, in
    order, exactly the intervals with their positions: one result per
    interval, none skipped over, none twice; and the three counters
    together grew by the number of intervals. *)
Theorem loop_records_every_interval :
  forall audio_file temp_dir language model continuous_segments i st w w' st',
    main_loop audio_file temp_dir language model i continuous_segments st w
    = (w', Some st') ->
    map result_key (all_segments st')
    = (map result_key (all_segments st)
       ++ map (fun p => (fst p, fst (snd p), snd (snd p)))
              (combine (seq i (length continuous_segments)) continuous_segments))%list /\
    total_count st' = (total_count st + length continuous_segments)%nat.
Proof.
  intros audio_file temp_dir language model segs.
  induction segs as [|[s e] segs IH]; intros i st w w' st' H.
  - cbn in H. injection H as <- <-. cbn. rewrite app_nil_r. split; [reflexivity|lia].
  - cbn [main_loop] in H.
    destruct (process_segment audio_file temp_dir language model i s e st w)
      as [w1 [st1|]] eqn:E; [|discriminate].
    destruct (process_segment_records _ _ _ _ _ _ _ _ _ _ _ E) as [Hkeys Hcount].
    destruct (IH _ _ _ _ _ H) as [Hkeys' Hcount'].
    rewrite Hkeys', Hkeys, Hcount', Hcount. cbn [length seq combine map fst snd].
    rewrite <- app_assoc. split; [reflexivity|lia].
Qed.

(** X21.  A failing slicer stops the run: when the driver has to cut the
    slice for segment [i] and the slicer exits with an error, the loop
    ends with an exception right after the slicer call; the engine is not
    called for [i] and the later intervals are not looked at. *)
Theorem slicer_failure_aborts :
  forall audio_file temp_dir language model i start_ms end_ms rest st w,
    check_segment_completed i temp_dir (fs w) = false ->
    fs w !! segment_wav temp_dir i = None ->
    fst (run_ffmpeg_cut w audio_file (start_ms / 1000) ((end_ms - start_ms) / 1000)
           (segment_wav temp_dir i)) = false ->
    let res := main_loop audio_file temp_dir language model i
                 ((start_ms, end_ms) :: rest) st w in
    snd res = None /\
    events (fst res)
    = (events w ++ [Cut audio_file (start_ms / 1000) ((end_ms - start_ms) / 1000)
                        (segment_wav temp_dir i)])%list.
Proof.
  intros audio_file temp_dir language model i start_ms end_ms rest st w
         Hcheck Hwav Hcut res.
  subst res. cbn [main_loop]. unfold process_segment. rewrite Hcheck, Hwav.
  unfold cut_audio_segment.
  destruct (run_ffmpeg_cut w audio_file (start_ms / 1000) ((end_ms - start_ms) / 1000)
              (segment_wav temp_dir i)) as [ok files].
  cbn [fst] in Hcut. subst ok. cbn. auto.
Qed.

End WithCollaborators.

Local Open Scope Q_scope.

Lemma returned_transcript_is_persisted_witness :
  fs (fst (process_segment (env := working_collaborators)
             (path_join run_dir "extracted_audio.wav") run_dir None "base"
             0 0 1000 initial_state empty_world))
  !! segment_json run_dir 0 = Some "{hi}".
Proof.
  apply (returned_transcript_is_persisted (env := working_collaborators)
           (path_join run_dir "extracted_audio.wav") run_dir None "base"
           0 0 1000 initial_state empty_world).
  - vm_compute. reflexivity.
  - vm_compute. reflexivity.
  - vm_compute. discriminate.
Defined.

Lemma completed_segment_resumes_witness :
  check_segment_completed 0 run_dir
    (fs (fst (process_segment (env := working_collaborators)
                (path_join run_dir "extracted_audio.wav") run_dir None "base"
                0 0 1000 initial_state empty_world))) = true.
Proof.
  apply (completed_segment_resumes (env := working_collaborators)
           (path_join run_dir "extracted_audio.wav") run_dir None "base"
           0 0 1000 initial_state empty_world).
  - vm_compute. reflexivity.
  - vm_compute. reflexivity.
  - vm_compute. discriminate.
  - vm_compute. reflexivity.
Defined.

Lemma loop_records_every_interval_witness :
  total_count
    (DriverState [SegInfo 0 0 1000 hi_result; SegInfo 1 4000 5000 hi_result] 2 0 0)
  = (total_count initial_state + length [(0, 1000); (4000, 5000)])%nat.
Proof.
  eapply (loop_records_every_interval (env := working_collaborators)
            (path_join run_dir "extracted_audio.wav") run_dir None "base"
            [(0, 1000); (4000, 5000)] 0 initial_state empty_world).
  vm_compute. reflexivity.
Defined.

Lemma slicer_failure_aborts_witness :
  snd (main_loop (env := no_slicer_collaborators)
         (path_join run_dir "extracted_audio.wav") run_dir None "base"
         0 [(0, 1000); (4000, 5000)] initial_state empty_world) = None.
Proof.
  apply (slicer_failure_aborts (env := no_slicer_collaborators)
           (path_join run_dir "extracted_audio.wav") run_dir None "base"
           0 0 1000 [(4000, 5000)] initial_state empty_world);
    vm_compute; reflexivity.
Defined.

End DriverMore.

(* ===================================================================== *)
(** * Facts about the segment cache *)
(* ===================================================================== *)

Module CacheFacts.
Import Merger Cache.
Local Open Scope Q_scope.

Section WithCodec.
Context {codec : SegmentCodec} {detector : Detector}.

Lemma load_after_save temp_dir segments files :
  load_segments_cache temp_dir (save_segments_cache temp_dir segments files)
  = segments_load (segments_dump segments).
Proof.
  unfold load_segments_cache, save_segments_cache.
  rewrite lookup_insert_eq. reflexivity.
Qed.

(** X22.  Saving the segment list and loading it again gives the list
    back whenever the JSON text of the list reads back as the list;
    saving changes no file but the cache file. *)
Theorem cache_round_trip :
  forall temp_dir segments files,
    segments_load (segments_dump segments) = Some segments ->
    load_segments_cache temp_dir (save_segments_cache temp_dir segments files)
    = Some segments /\
    forall path, path <> cache_file temp_dir ->
                 save_segments_cache temp_dir segments files !! path = files !! path.
Proof.
  intros temp_dir segments files Hround. split.
  - rewrite load_after_save. exact Hround.
  - intros path Hpath. unfold save_segments_cache.
    apply lookup_insert_ne. congruence.
Qed.

(** X23.  Once a run has detected and saved the segments, a later run
    without [--force-redetect] takes them from the cache, an empty list
    included, whenever their JSON text reads back as the list; the
    detector is not asked, and the silence threshold and the padding given
    to the later run play no part. *)
Theorem later_run_uses_cache :
  forall force_redetect temp_dir audio_file silence_threshold speech_pad files
         continuous_segments files',
    acquire_segments force_redetect temp_dir audio_file silence_threshold speech_pad
      files = Detected continuous_segments files' ->
    segments_load (segments_dump continuous_segments) = Some continuous_segments ->
    forall audio_file' silence_threshold' speech_pad',
      acquire_segments false temp_dir audio_file' silence_threshold' speech_pad' files'
      = FromCache continuous_segments.
Proof.
  intros force temp_dir audio thr pad files l files' Hacq Hround audio' thr' pad'.
  unfold acquire_segments in Hacq.
  destruct (if force then None else load_segments_cache temp_dir files);
    [discriminate|].
  destruct (run_vad files audio) as [[[vad n] rate]|]; [|discriminate].
  injection Hacq as Hl Hf. subst l files'.
  unfold acquire_segments. rewrite load_after_save, Hround. reflexivity.
Qed.

End WithCodec.

Lemma cache_round_trip_witness :
  load_segments_cache (codec := small_codec) Driver.run_dir
    (save_segments_cache (codec := small_codec) Driver.run_dir one_list ∅)
  = Some one_list.
Proof.
  apply (cache_round_trip (codec := small_codec) Driver.run_dir one_list ∅).
  reflexivity.
Defined.

Lemma later_run_uses_cache_witness :
  acquire_segments (codec := small_codec) (detector := one_track_detector)
    false Driver.run_dir "other.wav"%string 5 0
    (save_segments_cache (codec := small_codec) Driver.run_dir
       (detect_continuous_speech_segments [(1, 2)] 160000 16000 2 300) ∅)
  = FromCache (detect_continuous_speech_segments [(1, 2)] 160000 16000 2 300).
Proof.
  apply (later_run_uses_cache (codec := small_codec) (detector := one_track_detector)
           true Driver.run_dir "audio.wav"%string 2 300%Z ∅).
  - reflexivity.
  - vm_compute. reflexivity.
Defined.

End CacheFacts.

(* ===================================================================== *)
(** * Facts about the code over its arithmetic *)
(* ===================================================================== *)

Module CodeFacts.
Import Srt Arithmetic Code.

(** ** The order of binary64 and of the rationals *)

Lemma SFltb_asym (f1 f2 : SpecFloat.spec_float) :
  SpecFloat.SFltb f1 f2 = true -> SpecFloat.SFltb f2 f1 = false.
Proof.
  unfold SpecFloat.SFltb, SpecFloat.SFcompare.
  destruct f1 as [s1|s1| |s1 m1 e1], f2 as [s2|s2| |s2 m2 e2];
    try destruct s1; try destruct s2; try discriminate; try reflexivity;
    rewrite (Z.compare_antisym e1 e2); destruct (e1 ?= e2)%Z; cbn [CompOpp];
    try discriminate; try reflexivity;
    pose proof (Pos.compare_cont_antisym m1 m2 Eq) as H; cbn [CompOpp] in H;
    change PosDef.Pos.compare_cont with Pos.compare_cont;
    rewrite <- H; destruct (Pos.compare_cont Eq m1 m2); cbn; congruence.
Qed.

Lemma float_ltb_asym (a b : PrimFloat.float) :
  PrimFloat.ltb a b = true -> PrimFloat.ltb b a = false.
Proof.
  rewrite !FloatAxioms.ltb_spec. apply SFltb_asym.
Qed.

Lemma float_eqb_not_ltb (a b : PrimFloat.float) :
  PrimFloat.eqb a b = true -> PrimFloat.ltb a b = false.
Proof.
  rewrite FloatAxioms.eqb_spec, FloatAxioms.ltb_spec.
  unfold SpecFloat.SFeqb, SpecFloat.SFltb.
  destruct (SpecFloat.SFcompare (FloatOps.Prim2SF a) (FloatOps.Prim2SF b)) as [[]|];
    congruence.
Qed.

#[export] Instance binary64_ordered : Ordered binary64.
Proof. constructor. exact float_ltb_asym. Qed.

#[export] Instance exact_ordered : Ordered exact.
Proof.
  constructor. intros a b H. cbn in *.
  apply MergerFacts.Qltb_lt in H. apply MergerFacts.Qltb_ge.
  apply Qlt_le_weak. exact H.
Qed.

Section WithArith.
Context {A : Arith}.

Lemma n_lt_irrefl {O : Ordered A} (a : num) : n_lt a a = false.
Proof.
  destruct (n_lt a a) eqn:E; [|reflexivity].
  rewrite (n_lt_asym a a E) in E. discriminate.
Qed.

(** ** The loop against the sweep *)

Lemma iteration_reads_element pre (x : num * num) rest t st :
  merge_iteration (pre ++ x :: rest) t st (length pre) = step_on t st x.
Proof.
  unfold merge_iteration, step_on.
  rewrite app_nth2 by lia. rewrite Nat.sub_diag. cbn [nth].
  destruct x as [ns ne]. reflexivity.
Qed.

Lemma loop_on_indices_is_loop_on_elements (rest : list (num * num)) : forall pre t st,
  fold_left (merge_iteration (pre ++ rest) t) (seq (length pre) (length rest)) st
  = fold_left (step_on t) rest st.
Proof.
  induction rest as [|x rest IH]; intros pre t st; [reflexivity|].
  cbn [length seq fold_left]. rewrite iteration_reads_element.
  specialize (IH (pre ++ [x]) t (step_on t st x)).
  rewrite <- app_assoc in IH. cbn [app] in IH.
  rewrite length_app in IH. cbn [length] in IH.
  rewrite Nat.add_1_r in IH. exact IH.
Qed.

Lemma loop_on_elements_is_sweep (rest : list (num * num)) : forall t st,
  let st' := fold_left (step_on t) rest st in
  merged_segments st' ++ [(current_start st', current_end st')]
  = merged_segments st ++ reference_sweep t (current_start st) (current_end st) rest.
Proof.
  induction rest as [|[ns ne] rest IH]; intros t st; [reflexivity|].
  cbn [fold_left reference_sweep]. cbv zeta in IH |- *. rewrite IH.
  unfold step_on. cbn [fst snd].
  destruct (n_lt (n_sub ns (current_end st)) t);
    cbn [current_start current_end merged_segments].
  - reflexivity.
  - rewrite <- app_assoc. reflexivity.
Qed.

Lemma sorted_of_cons_nonempty (x : num * num) l : sorted (x :: l) <> [].
Proof.
  cbn [sorted]. destruct (sorted l) as [|y l']; cbn; [discriminate|].
  destruct (n_lt (fst y) (fst x)); discriminate.
Qed.

Lemma merge_is_sweep (segments : list (num * num)) silence_threshold_sec :
  merge_speech_segments_from_tuples segments silence_threshold_sec
  = reference_merge segments (n_mul silence_threshold_sec (of_int 1000)).
Proof.
  unfold merge_speech_segments_from_tuples, reference_merge.
  destruct segments as [|x l]; [reflexivity|].
  pose proof (sorted_of_cons_nonempty x l) as Hne.
  destruct (sorted (x :: l)) as [|[s e] rest]; [congruence|].
  cbn [nth].
  replace (length ((s, e) :: rest) - 1)%nat with (length rest)
    by (cbn [length]; lia).
  pose proof (loop_on_indices_is_loop_on_elements rest [(s, e)]) as Hidx.
  cbn [app length] in Hidx. rewrite Hidx.
  pose proof (loop_on_elements_is_sweep rest (n_mul silence_threshold_sec (of_int 1000))
                (SweepState s e [])) as Hsw.
  cbv zeta in Hsw. rewrite Hsw. reflexivity.
Qed.

(** ** The sort *)

Lemma insert_is_permutation (x : num * num) l :
  Permutation (x :: l) (insert_by_start x l).
Proof.
  induction l as [|y l IH]; cbn [insert_by_start]; [reflexivity|].
  destruct (n_lt (fst y) (fst x)); [|reflexivity].
  rewrite perm_swap. apply perm_skip. exact IH.
Qed.

Lemma sorted_is_permutation (l : list (num * num)) : Permutation l (sorted l).
Proof.
  induction l as [|x l IH]; cbn [sorted]; [reflexivity|].
  rewrite <- insert_is_permutation. apply perm_skip. exact IH.
Qed.

Lemma insert_not_descending {O : Ordered A} (x : num * num) l :
  not_descending l -> not_descending (insert_by_start x l).
Proof.
  induction l as [|y l IH]; intros Hl; cbn [insert_by_start]; [cbn; auto|].
  destruct (n_lt (fst y) (fst x)) eqn:E.
  - destruct Hl as [Hy Hl]. specialize (IH Hl).
    cbn [not_descending]. split; [|exact IH].
    destruct l as [|z l]; cbn [insert_by_start] in *.
    + apply n_lt_asym. exact E.
    + destruct (n_lt (fst z) (fst x)); [exact Hy|apply n_lt_asym; exact E].
  - cbn [not_descending]. split; [exact E|exact Hl].
Qed.

Lemma sorted_not_descending {O : Ordered A} (l : list (num * num)) :
  not_descending (sorted l).
Proof.
  induction l as [|x l IH]; cbn [sorted]; [exact I|].
  apply insert_not_descending. exact IH.
Qed.

(** ** What the sweep returns *)

Lemma sweep_apart t (rest : list (num * num)) : forall cs ce,
  exists ce' out,
    reference_sweep t cs ce rest = (cs, ce') :: out /\ apart t ce' out.
Proof.
  induction rest as [|[ns ne] rest IH]; intros cs ce; cbn [reference_sweep].
  - exists ce, []. split; [reflexivity|exact I].
  - destruct (n_lt (n_sub ns ce) t) eqn:E.
    + apply IH.
    + destruct (IH ns ne) as (ce' & out & -> & Hout).
      exists ce, ((ns, ce') :: out). split; [reflexivity|].
      cbn [apart fst snd]. auto.
Qed.

Lemma apart_adjacent t (out : list (num * num)) : forall s e i a b,
  apart t e out ->
  nth_error ((s, e) :: out) i = Some a ->
  nth_error ((s, e) :: out) (S i) = Some b ->
  n_lt (n_sub (fst b) (snd a)) t = false.
Proof.
  induction out as [|[xs xe] out IH]; intros s e i a b Hap Ha Hb.
  - destruct i; discriminate.
  - destruct Hap as [Hgap Hrest]. cbn [fst snd] in *.
    destruct i as [|i].
    + injection Ha as <-. injection Hb as <-. exact Hgap.
    + apply (IH xs xe i a b Hrest); assumption.
Qed.

Lemma py_max_either (a b : num) : py_max a b = a \/ py_max a b = b.
Proof.
  unfold py_max. destruct (n_lt a b); auto.
Qed.

Lemma sweep_endpoints_from_input t (rest : list (num * num)) : forall cs ce o,
  In o (reference_sweep t cs ce rest) ->
  In (fst o) (cs :: map fst rest) /\ In (snd o) (ce :: map snd rest).
Proof.
  induction rest as [|[ns ne] rest IH]; intros cs ce o; cbn [reference_sweep].
  - intros [<-|[]]. cbn. auto.
  - destruct (n_lt (n_sub ns ce) t).
    + intros Hin. destruct (IH _ _ _ Hin) as [Hs He]. cbn [map fst snd]. split.
      * destruct Hs as [Hs|Hs]; [left; exact Hs|right; right; exact Hs].
      * destruct He as [He|He]; [|right; right; exact He].
        destruct (py_max_either ce ne) as [Hm|Hm]; rewrite Hm in He;
          [left|right; left]; exact He.
    + intros [<-|Hin]; [cbn; auto|].
      destruct (IH _ _ _ Hin) as [Hs He]. cbn [map fst snd]. split; right; assumption.
Qed.

Lemma merge_keeps_endpoints (l : list (num * num)) t :
  Forall (fun o => In (fst o) (map fst l) /\ In (snd o) (map snd l))
         (merge_speech_segments_from_tuples l t).
Proof.
  rewrite merge_is_sweep. unfold reference_merge.
  pose proof (sorted_is_permutation l) as Hp.
  destruct (sorted l) as [|[s e] rest]; [constructor|].
  apply List.Forall_forall. intros o Hin.
  destruct (sweep_endpoints_from_input _ _ _ _ _ Hin) as [Hs He]. split.
  - apply (Permutation_in _ (Permutation_sym (Permutation_map fst Hp))). exact Hs.
  - apply (Permutation_in _ (Permutation_sym (Permutation_map snd Hp))). exact He.
Qed.

(** ** Padding *)

Lemma pad_segment_bounds {O : Ordered A} speech_pad_ms audio_length_ms
    (raw : num * num) :
  n_lt (fst (pad_segment speech_pad_ms audio_length_ms raw)) (of_int 0) = false /\
  n_lt audio_length_ms (snd (pad_segment speech_pad_ms audio_length_ms raw)) = false.
Proof.
  unfold pad_segment, py_max, py_min. cbn [fst snd]. split.
  - destruct (n_lt (of_int 0) _) eqn:E; [apply n_lt_asym; exact E|apply n_lt_irrefl].
  - destruct (n_lt _ audio_length_ms) eqn:E; [apply n_lt_asym; exact E|apply n_lt_irrefl].
Qed.

Lemma detect_is_pad_then_merge vad_result waveform_len sample_rate
    silence_threshold_sec speech_pad_ms :
  detect_continuous_speech_segments vad_result waveform_len sample_rate
    silence_threshold_sec speech_pad_ms
  = merge_speech_segments_from_tuples
      (map (pad_segment speech_pad_ms (audio_length_ms_of waveform_len sample_rate))
           vad_result)
      silence_threshold_sec.
Proof.
  unfold detect_continuous_speech_segments. cbv zeta.
  destruct (map _ vad_result); reflexivity.
Qed.

(** ** The writing loops against the cue list *)

Lemma entries_loop_is_cues entries : forall (seg_start : num) n f,
  fold_left (write_entry seg_start) entries (n, f)
  = ((n + length (number_cues n seg_start entries))%nat,
     f ++ flat_map render_cue (number_cues n seg_start entries)).
Proof.
  induction entries as [|e entries IH]; intros seg_start n f.
  - cbn. rewrite Nat.add_0_r, app_nil_r. reflexivity.
  - cbn [fold_left number_cues]. unfold write_entry at 2. fold (kept e).
    destruct (kept e).
    + rewrite IH. cbn [length flat_map]. f_equal; [lia|].
      unfold render_cue at 2. cbn [cue_index cue_start_ms cue_end_ms cue_text].
      rewrite <- !app_assoc. reflexivity.
    + apply IH.
Qed.

Lemma segments_loop_is_cues (results : list seg_info_t) : forall n f,
  fold_left write_segment results (n, f)
  = ((n + length (reassemble_from n results))%nat,
     f ++ flat_map render_cue (reassemble_from n results)).
Proof.
  induction results as [|r results IH]; intros n f.
  - cbn. rewrite Nat.add_0_r, app_nil_r. reflexivity.
  - cbn [fold_left reassemble_from]. unfold write_segment at 2.
    rewrite entries_loop_is_cues, IH. cbv zeta.
    rewrite length_app, flat_map_app, app_assoc. f_equal. lia.
Qed.

Lemma written_text_is_rendering (results : list seg_info_t) :
  generate_srt results = flat_map render_cue (reassemble results).
Proof.
  unfold generate_srt, reassemble. rewrite segments_loop_is_cues. reflexivity.
Qed.

Lemma number_cues_origin entries : forall n (seg_start : num),
  Forall (fun c => exists e, In e entries /\ kept e = true /\
                   cue_start_ms c = n_add seg_start (n_mul (start e) (of_int 1000)) /\
                   cue_end_ms c = n_add seg_start (n_mul (end_ e) (of_int 1000)) /\
                   cue_text c = strip (text e))
         (number_cues n seg_start entries).
Proof.
  induction entries as [|e entries IH]; intros n seg_start; [constructor|].
  assert (Hrest : forall m,
    Forall (fun c => exists e', In e' (e :: entries) /\ kept e' = true /\
                   cue_start_ms c = n_add seg_start (n_mul (start e') (of_int 1000)) /\
                   cue_end_ms c = n_add seg_start (n_mul (end_ e') (of_int 1000)) /\
                   cue_text c = strip (text e'))
           (number_cues m seg_start entries)).
  { intros m. eapply List.Forall_impl; [|apply IH].
    intros c (e' & Hin & Hrest). exists e'. split; [right; exact Hin|exact Hrest]. }
  cbn [number_cues]. destruct (kept e) eqn:Hk; [|apply Hrest].
  constructor; [|apply Hrest].
  exists e. cbn. auto.
Qed.

Lemma reassemble_from_origin (results : list seg_info_t) : forall n,
  Forall (fun c => exists r e,
            In r results /\ In e (whisper_segments r) /\ kept e = true /\
            cue_start_ms c
            = n_add (segment_start_ms r) (n_mul (start e) (of_int 1000)) /\
            cue_end_ms c
            = n_add (segment_start_ms r) (n_mul (end_ e) (of_int 1000)) /\
            cue_text c = strip (text e))
         (reassemble_from n results).
Proof.
  induction results as [|r results IH]; intros n; [constructor|].
  cbn [reassemble_from]. cbv zeta. apply Forall_app. split.
  - eapply List.Forall_impl; [|apply number_cues_origin].
    intros c (e & Hin & Hrest). exists r, e. cbn. auto.
  - eapply List.Forall_impl; [|apply IH].
    intros c (r' & e & Hr & Hrest). exists r', e. cbn. auto.
Qed.

Lemma number_cues_complete entries : forall n (seg_start : num) e,
  In e entries -> kept e = true ->
  exists i, In (Cue i (n_add seg_start (n_mul (start e) (of_int 1000)))
                      (n_add seg_start (n_mul (end_ e) (of_int 1000)))
                      (strip (text e)))
               (number_cues n seg_start entries).
Proof.
  induction entries as [|x entries IH]; intros n seg_start e; [intros []|].
  intros [->|Hin] Hk; cbn [number_cues].
  - rewrite Hk. exists n. left. reflexivity.
  - destruct (kept x).
    + destruct (IH (S n) seg_start e Hin Hk) as (i & Hi). exists i. right. exact Hi.
    + apply IH; assumption.
Qed.

Lemma reassemble_from_complete (results : list seg_info_t) : forall n r e,
  In r results -> In e (whisper_segments r) -> kept e = true ->
  exists i, In (Cue i (n_add (segment_start_ms r) (n_mul (start e) (of_int 1000)))
                      (n_add (segment_start_ms r) (n_mul (end_ e) (of_int 1000)))
                      (strip (text e)))
               (reassemble_from n results).
Proof.
  induction results as [|x results IH]; intros n r e; [intros []|].
  intros [->|Hin] He Hk; cbn [reassemble_from]; cbv zeta.
  - destruct (number_cues_complete _ n (segment_start_ms r) e He Hk) as (i & Hi).
    exists i. apply in_or_app. left. exact Hi.
  - destruct (IH (n + length (number_cues n (segment_start_ms x) (whisper_segments x)))%nat
                r e Hin He Hk) as (i & Hi).
    exists i. apply in_or_app. right. exact Hi.
Qed.

Lemma detect_clamped {O : Ordered A} (vad_result : list (num * num))
    waveform_len sample_rate (silence_threshold_sec : num) speech_pad_ms :
  Forall (fun s =>
            n_lt (fst s) (of_int 0) = false /\
            n_lt (audio_length_ms_of waveform_len sample_rate) (snd s) = false)
         (detect_continuous_speech_segments vad_result waveform_len sample_rate
            silence_threshold_sec speech_pad_ms).
Proof.
  rewrite detect_is_pad_then_merge.
  pose proof (merge_keeps_endpoints
                (map (pad_segment speech_pad_ms
                        (audio_length_ms_of waveform_len sample_rate)) vad_result)
                silence_threshold_sec) as Hend.
  rewrite List.Forall_forall in Hend. apply List.Forall_forall. intros o Ho.
  destruct (Hend o Ho) as [Hs He].
  rewrite map_map in Hs, He.
  apply in_map_iff in Hs as (r1 & <- & _). apply in_map_iff in He as (r2 & <- & _).
  split; [apply (pad_segment_bounds _ _ r1)|apply (pad_segment_bounds _ _ r2)].
Qed.

Lemma merged_adjacent (segments : list (num * num)) (silence_threshold_sec : num)
    i a b :
  nth_error (merge_speech_segments_from_tuples segments silence_threshold_sec) i
  = Some a ->
  nth_error (merge_speech_segments_from_tuples segments silence_threshold_sec) (S i)
  = Some b ->
  n_lt (n_sub (fst b) (snd a)) (n_mul silence_threshold_sec (of_int 1000)) = false.
Proof.
  rewrite merge_is_sweep. unfold reference_merge.
  destruct (sorted segments) as [|[s e] rest]; [destruct i; discriminate|].
  destruct (sweep_apart (n_mul silence_threshold_sec (of_int 1000)) rest s e)
    as (ce' & out & -> & Hap).
  apply (apart_adjacent _ _ _ _ _ _ _ Hap).
Qed.

End WithArith.

(** ** The rational model is the code on exact arithmetic *)

Lemma Qle_bool_Qltb (a b : Q) : Qle_bool a b = negb (Merger.Qltb b a).
Proof.
  unfold Qle_bool, Merger.Qltb, Qcompare, Z.leb.
  rewrite (Z.compare_antisym (Qnum a * QDen b) (Qnum b * QDen a)).
  destruct (Qnum a * QDen b ?= Qnum b * QDen a)%Z; reflexivity.
Qed.

Lemma insert_on_rationals (x : Q * Q) (r : list (Q * Q)) :
  Merger.insert_by_start x r = Code.insert_by_start (A := exact) x r.
Proof.
  destruct x as [xs xe].
  induction r as [|[ys ye] r IH]; [reflexivity|].
  cbn [Merger.insert_by_start Code.insert_by_start fst].
  rewrite Qle_bool_Qltb, IH.
  change (@n_lt exact ys xs) with (Merger.Qltb ys xs).
  destruct (Merger.Qltb ys xs); reflexivity.
Qed.

Lemma sorted_on_rationals (l : list (Q * Q)) :
  Merger.sorted l = Code.sorted (A := exact) l.
Proof.
  induction l as [|x l IH]; [reflexivity|].
  cbn [Merger.sorted Code.sorted]. rewrite IH. apply insert_on_rationals.
Qed.

Lemma sweep_on_rationals (t : Q) (rest : list (Q * Q)) : forall cs ce,
  Merger.reference_sweep t cs ce rest = Code.reference_sweep (A := exact) t cs ce rest.
Proof.
  induction rest as [|[ns ne] rest IH]; intros cs ce; [reflexivity|].
  cbn [Merger.reference_sweep Code.reference_sweep].
  change (@n_lt exact (@n_sub exact ns ce) t) with (Merger.Qltb (ns - ce) t).
  destruct (Merger.Qltb (ns - ce) t); rewrite IH; [|reflexivity].
  rewrite <- MergerFacts.py_max_Qmax. reflexivity.
Qed.

Lemma merge_on_rationals (l : list (Q * Q)) (t : Q) :
  Merger.merge_speech_segments_from_tuples l t
  = Code.merge_speech_segments_from_tuples (A := exact) l t.
Proof.
  rewrite MergerFacts.merge_eq_reference, merge_is_sweep.
  unfold Merger.reference_merge, Code.reference_merge.
  rewrite sorted_on_rationals.
  destruct (Code.sorted (A := exact) l) as [|[s e] rest]; [reflexivity|].
  apply sweep_on_rationals.
Qed.

Lemma srt_time_on_rationals (ms : Q) :
  Srt.milliseconds_to_srt_time ms = Code.milliseconds_to_srt_time (A := exact) ms.
Proof. reflexivity. Qed.

(** ** Comparisons of binary64 *)

Lemma float_ltb_leb (a b : PrimFloat.float) :
  PrimFloat.ltb a b = true -> PrimFloat.leb a b = true.
Proof.
  rewrite FloatAxioms.ltb_spec, FloatAxioms.leb_spec.
  unfold SpecFloat.SFltb, SpecFloat.SFleb.
  destruct (SpecFloat.SFcompare (FloatOps.Prim2SF a) (FloatOps.Prim2SF b)) as [[]|];
    congruence.
Qed.

Lemma float_eqb_leb (a b : PrimFloat.float) :
  PrimFloat.eqb a b = true -> PrimFloat.leb a b = true.
Proof.
  rewrite FloatAxioms.eqb_spec, FloatAxioms.leb_spec.
  unfold SpecFloat.SFeqb, SpecFloat.SFleb.
  destruct (SpecFloat.SFcompare (FloatOps.Prim2SF a) (FloatOps.Prim2SF b)) as [[]|];
    congruence.
Qed.

Lemma pad_segment_binary64 speech_pad_ms (audio_length_ms : PrimFloat.float)
    (raw : PrimFloat.float * PrimFloat.float) :
  PrimFloat.leb PrimFloat.zero
    (fst (pad_segment (A := binary64) speech_pad_ms audio_length_ms raw)) = true /\
  (PrimFloat.eqb audio_length_ms audio_length_ms = true ->
   PrimFloat.leb (snd (pad_segment (A := binary64) speech_pad_ms audio_length_ms raw))
     audio_length_ms = true).
Proof.
  unfold pad_segment, py_max, py_min. cbn [fst snd]. split.
  - destruct (@n_lt binary64 (of_int 0) _) eqn:E; [|reflexivity].
    apply float_ltb_leb. exact E.
  - intros Hnan. destruct (@n_lt binary64 _ audio_length_ms) eqn:E.
    + apply float_ltb_leb. exact E.
    + apply float_eqb_leb. exact Hnan.
Qed.

End CodeFacts.

(* ===================================================================== *)
(** * The merger, the padding and the cue times as the code computes them *)
(* ===================================================================== *)

(** The statements below hold on every arithmetic, so on Python's too; the
    evaluated cases are on binary64, where [1.001 * 1000] is
    [1000.9999999999999] and [4.02 * 1000] is [4019.9999999999995]. *)
Module CodeClaims.
Import Srt Arithmetic Code CodeFacts.
Import PrimFloat.
Local Set Warnings "-inexact-float".

(** C1.  [merge_speech_segments_from_tuples] is the reference sweep, with
    the code's own comparison, subtraction and product: it sorts by start
    ascending (a stable rearrangement of the input in which no start is
    smaller than the one before it), then sweeps with a running interval
    that is extended to [max(current_end, next_end)] exactly when
    [next_start - current_end < silence_threshold_sec * 1000] as the code
    evaluates it, and flushed otherwise, the last running interval being
    flushed at the end.  Empty input gives empty output, a single interval
    is returned unchanged, two intervals are joined or kept by that one
    test, and on binary64 a gap equal to the computed threshold keeps them
    apart. *)
Theorem merge_loop_is_reference_sweep :
  (forall (A : Arith) (segments : list (num * num)) (silence_threshold_sec : num),
      merge_speech_segments_from_tuples segments silence_threshold_sec
      = reference_merge segments (n_mul silence_threshold_sec (of_int 1000))) /\
  (forall (A : Arith) (segments : list (num * num)),
      Permutation segments (sorted segments)) /\
  (forall (A : Arith), Ordered A -> forall segments : list (num * num),
      not_descending (sorted segments)) /\
  (forall (A : Arith) (t : num), merge_speech_segments_from_tuples [] t = []) /\
  (forall (A : Arith) (x : num * num) (t : num),
      merge_speech_segments_from_tuples [x] t = [x]) /\
  (forall (A : Arith) (a b c d t : num),
      n_lt c a = false ->
      merge_speech_segments_from_tuples [(a, b); (c, d)] t
      = if n_lt (n_sub c b) (n_mul t (of_int 1000))
        then [(a, py_max b d)] else [(a, b); (c, d)]) /\
  (forall a b c d t : float,
      (c <? a)%float = false -> (c - b =? t * 1000)%float = true ->
      merge_speech_segments_from_tuples (A := binary64) [(a, b); (c, d)] t
      = [(a, b); (c, d)]) /\
  merge_speech_segments_from_tuples (A := binary64)
    [(0, 1000); (3000, 4000)]%float 2%float
  = [(0, 1000); (3000, 4000)]%float /\
  merge_speech_segments_from_tuples (A := binary64)
    [(0, 1000); (2999.5, 4000)]%float 2%float
  = [(0, 4000)]%float /\
  merge_speech_segments_from_tuples (A := binary64)
    [(0, 0); (1000.9999999999999, 2000)]%float 1.001%float
  = [(0, 0); (1000.9999999999999, 2000)]%float.
Proof.
  assert (Htwo : forall (A : Arith) (a b c d t : num),
      n_lt c a = false ->
      merge_speech_segments_from_tuples [(a, b); (c, d)] t
      = if n_lt (n_sub c b) (n_mul t (of_int 1000))
        then [(a, py_max b d)] else [(a, b); (c, d)]).
  { intros A a b c d t Hca. rewrite merge_is_sweep.
    unfold reference_merge. cbn [sorted insert_by_start fst]. rewrite Hca.
    cbn [reference_sweep]. destruct (n_lt _ _); reflexivity. }
  split; [exact @merge_is_sweep|].
  split; [exact @sorted_is_permutation|].
  split; [intros A O l; apply sorted_not_descending|].
  split; [reflexivity|].
  split; [intros A [s e] t; reflexivity|].
  split; [exact Htwo|].
  split; [|split; [vm_compute; reflexivity|split; vm_compute; reflexivity]].
  intros a b c d t Hca Hgap. pose proof (Htwo binary64 a b c d t Hca) as H.
  change (@n_lt binary64 (@n_sub binary64 c b) (@n_mul binary64 t (@of_int binary64 1000)))
    with (c - b <? t * 1000)%float in H.
  rewrite (float_eqb_not_ltb _ _ Hgap) in H. exact H.
Qed.

Lemma merge_loop_is_reference_sweep_witness :
  not_descending (sorted (A := binary64) [(3000, 4000); (0, 1000)]%float) /\
  merge_speech_segments_from_tuples (A := binary64)
    [(0, 0); (1000.9999999999999, 2000)]%float 1.001%float
  = [(0, 0); (1000.9999999999999, 2000)]%float.
Proof.
  destruct merge_loop_is_reference_sweep as (_ & _ & Hsort & _ & _ & _ & Hkeep & _).
  split.
  - apply (Hsort binary64 binary64_ordered).
  - apply (Hkeep 0 0 1000.9999999999999 2000 1.001)%float; reflexivity.
Defined.

(** C8.  Detection pads every raw interval on its own, before sorting and
    merging: the start in milliseconds is moved back by the pad and
    replaced by 0 when that is not above 0, the end is moved forward by the
    pad and replaced by the audio length in milliseconds when that is
    smaller; the padded start is never below 0 and the padded end never
    above the audio length, as the code compares them, and the merger runs
    on the padded list, so that intervals which overlap only after padding
    are merged.  On binary64 the comparisons are [0 <= start] and
    [end <= audio_length_ms]; the audio length is the rounded
    [len(waveform) / sample_rate * 1000]. *)
Theorem padding_then_merge :
  (forall (A : Arith) (vad_result : list (num * num)) waveform_len sample_rate
          (silence_threshold_sec : num) speech_pad_ms,
      detect_continuous_speech_segments vad_result waveform_len sample_rate
        silence_threshold_sec speech_pad_ms
      = merge_speech_segments_from_tuples
          (map (pad_segment speech_pad_ms
                  (audio_length_ms_of waveform_len sample_rate)) vad_result)
          silence_threshold_sec) /\
  (forall (A : Arith) speech_pad_ms (audio_length_ms : num) (raw : num * num),
      pad_segment speech_pad_ms audio_length_ms raw
      = (py_max (of_int 0)
           (n_sub (n_mul (fst raw) (of_int 1000)) (of_int speech_pad_ms)),
         py_min audio_length_ms
           (n_add (n_mul (snd raw) (of_int 1000)) (of_int speech_pad_ms)))) /\
  (forall (A : Arith), Ordered A ->
   forall speech_pad_ms (audio_length_ms : num) (raw : num * num),
      n_lt (fst (pad_segment speech_pad_ms audio_length_ms raw)) (of_int 0) = false /\
      n_lt audio_length_ms (snd (pad_segment speech_pad_ms audio_length_ms raw))
      = false) /\
  (forall speech_pad_ms (audio_length_ms : float) (raw : float * float),
      (0 <=? fst (pad_segment (A := binary64) speech_pad_ms audio_length_ms raw))%float
      = true /\
      ((audio_length_ms =? audio_length_ms)%float = true ->
       (snd (pad_segment (A := binary64) speech_pad_ms audio_length_ms raw)
        <=? audio_length_ms)%float = true)) /\
  audio_length_ms_of (A := binary64) 16001 16000 = 1000.0625000000001%float /\
  detect_continuous_speech_segments (A := binary64)
    [(0.1, 0.5); (0.9, 1.0001)]%float 16001 16000 0.05%float 300
  = [(0, 1000.0625000000001)]%float /\
  map (pad_segment (A := binary64) 300 40000%float) [(31, 32.051); (34.651, 36)]%float
  = [(30700, 32351.000000000004); (34351, 36300)]%float /\
  detect_continuous_speech_segments (A := binary64)
    [(31, 32.051); (34.651, 36)]%float 640000 16000 2%float 300
  = [(30700, 36300)]%float /\
  detect_continuous_speech_segments (A := binary64)
    [(1, 2); (2.5, 3)]%float 640000 16000 0.05%float 300
  = [(700, 3300)]%float.
Proof.
  split; [exact @detect_is_pad_then_merge|].
  split; [reflexivity|].
  split; [intros A O pad len raw; apply pad_segment_bounds|].
  split; [exact pad_segment_binary64|].
  split; [vm_compute; reflexivity|].
  split; [vm_compute; reflexivity|].
  split; [vm_compute; reflexivity|].
  split; vm_compute; reflexivity.
Qed.

Lemma padding_then_merge_witness :
  ((fst (pad_segment (A := binary64) 300 1000.0625000000001%float (0.1, 0.5)%float)
    <? 0)%float = false /\
   (1000.0625000000001
    <? snd (pad_segment (A := binary64) 300 1000.0625000000001%float (0.9, 1.0001)%float)
   )%float = false) /\
  (snd (pad_segment (A := binary64) 300 1000.0625000000001%float (0.9, 1.0001)%float)
   <=? 1000.0625000000001)%float = true.
Proof.
  destruct padding_then_merge as (_ & _ & Hbound & Hfloat & _).
  split.
  - split.
    + apply (proj1 (Hbound binary64 binary64_ordered 300%Z 1000.0625000000001%float
                      (0.1, 0.5)%float)).
    + apply (proj2 (Hbound binary64 binary64_ordered 300%Z 1000.0625000000001%float
                      (0.9, 1.0001)%float)).
  - apply (Hfloat 300%Z 1000.0625000000001%float (0.9, 1.0001)%float). reflexivity.
Defined.

(** C4.  The text written by [generate_srt] is the rendering of the cue
    list, every cue carries the times
    [segment_start_ms + entry.start * 1000] and
    [segment_start_ms + entry.end * 1000] of one transcript entry of one
    segment, as the code computes them, and every entry with text gives
    such a cue.  On binary64 a segment starting at 10000 ms with the entry
    [{start: 1.5, end: 2.0, text: "hi"}] gives the cue from 11500 to 12000,
    written [00:00:11,500 --> 00:00:12,000]; the products are rounded, so
    an entry from 0.3 to 4.02 in a segment starting at 0 gives the cue from
    300 to 4019.9999999999995, written [00:00:00,300 --> 00:00:04,019]. *)
Theorem cue_times_offset_by_segment_start :
  (forall (A : Arith) (all_segments : list seg_info_t),
      generate_srt all_segments = flat_map render_cue (reassemble all_segments) /\
      Forall (fun c => exists r e,
                In r all_segments /\ In e (whisper_segments r) /\ kept e = true /\
                cue_start_ms c
                = n_add (segment_start_ms r) (n_mul (start e) (of_int 1000)) /\
                cue_end_ms c
                = n_add (segment_start_ms r) (n_mul (end_ e) (of_int 1000)) /\
                cue_text c = strip (text e))
             (reassemble all_segments)) /\
  (forall (A : Arith) (all_segments : list seg_info_t) r e,
      In r all_segments -> In e (whisper_segments r) -> kept e = true ->
      exists i,
        In (Cue i (n_add (segment_start_ms r) (n_mul (start e) (of_int 1000)))
                  (n_add (segment_start_ms r) (n_mul (end_ e) (of_int 1000)))
                  (strip (text e)))
           (reassemble all_segments)) /\
  (forall index (segment_end : float),
      let results :=
        [SegInfo (A := binary64) index 10000%float segment_end
           [TranscriptEntry (A := binary64) 1.5%float 2%float (str "hi")]] in
      reassemble results
      = [Cue (A := binary64) 1 11500%float 12000%float (str "hi")] /\
      generate_srt results
      = str "1" ++ newline ++ str "00:00:11,500 --> 00:00:12,000" ++ newline ++
        str "hi" ++ newline ++ newline) /\
  (let results :=
     [SegInfo (A := binary64) 0 0%float 20000%float
        [TranscriptEntry (A := binary64) 0.3%float 4.02%float (str "hi")]] in
   reassemble results
   = [Cue (A := binary64) 1 300%float 4019.9999999999995%float (str "hi")] /\
   generate_srt results
   = str "1" ++ newline ++ str "00:00:00,300 --> 00:00:04,019" ++ newline ++
     str "hi" ++ newline ++ newline).
Proof.
  split.
  { intros A results. split; [apply written_text_is_rendering|].
    apply reassemble_from_origin. }
  split.
  { intros A results r e Hr He Hk. apply reassemble_from_complete; assumption. }
  split.
  - intros index segment_end results. split; [reflexivity|vm_compute; reflexivity].
  - split; [reflexivity|vm_compute; reflexivity].
Qed.

Lemma cue_times_offset_by_segment_start_witness :
  exists i,
    In (Cue (A := binary64) i 11500%float 12000%float (str "hi"))
       (reassemble
          [SegInfo (A := binary64) 0 10000%float 20000%float
             [TranscriptEntry (A := binary64) 1.5%float 2%float (str "hi")]]).
Proof.
  destruct cue_times_offset_by_segment_start as (_ & Hall & _).
  apply (Hall binary64
           [SegInfo (A := binary64) 0 10000%float 20000%float
              [TranscriptEntry (A := binary64) 1.5%float 2%float (str "hi")]]
           (SegInfo (A := binary64) 0 10000%float 20000%float
              [TranscriptEntry (A := binary64) 1.5%float 2%float (str "hi")])
           (TranscriptEntry (A := binary64) 1.5%float 2%float (str "hi")));
    [left; reflexivity|left; reflexivity|reflexivity].
Defined.

(** X1.  In the merged list every interval fails the merge test against
    the interval before it: [start - previous_end < silence_threshold_sec
    * 1000], evaluated as the code evaluates it, is false. *)
Theorem merged_neighbours_fail_merge_test :
  forall (A : Arith) (segments : list (num * num)) (silence_threshold_sec : num)
         i a b,
    let merged := merge_speech_segments_from_tuples segments silence_threshold_sec in
    nth_error merged i = Some a ->
    nth_error merged (S i) = Some b ->
    n_lt (n_sub (fst b) (snd a)) (n_mul silence_threshold_sec (of_int 1000)) = false.
Proof.
  intros A l t i a b merged. subst merged. apply merged_adjacent.
Qed.

Lemma merged_neighbours_fail_merge_test_witness :
  (6000 - 1500 <? 2 * 1000)%float = false.
Proof.
  apply (merged_neighbours_fail_merge_test binary64
           [(6000, 7000); (0, 1000); (500, 1500)]%float 2%float 0%nat
           (0, 1500)%float (6000, 7000)%float);
    reflexivity.
Defined.

(** X5.  Detection returns the empty list when the detector reports no
    track; otherwise no returned start is below 0 and no returned end is
    above the audio length in milliseconds that the code computes, as the
    code compares them. *)
Theorem detected_segments_clamped :
  forall (A : Arith), Ordered A ->
  forall (vad_result : list (num * num)) waveform_len sample_rate
         (silence_threshold_sec : num) speech_pad_ms,
    detect_continuous_speech_segments [] waveform_len sample_rate
      silence_threshold_sec speech_pad_ms = [] /\
    Forall (fun s =>
              n_lt (fst s) (of_int 0) = false /\
              n_lt (audio_length_ms_of waveform_len sample_rate) (snd s) = false)
           (detect_continuous_speech_segments vad_result waveform_len sample_rate
              silence_threshold_sec speech_pad_ms).
Proof.
  intros A O vad n rate t pad. split; [reflexivity|apply detect_clamped].
Qed.

Lemma detected_segments_clamped_witness :
  Forall (fun s : float * float =>
            (fst s <? 0)%float = false /\
            (audio_length_ms_of (A := binary64) 16001 16000 <? snd s)%float = false)
         (detect_continuous_speech_segments (A := binary64)
            [(0.1, 0.5); (0.9, 1.0001)]%float 16001 16000 0.05%float 300).
Proof.
  apply (detected_segments_clamped binary64 binary64_ordered
           [(0.1, 0.5); (0.9, 1.0001)]%float 16001%N 16000%positive 0.05%float 300%Z).
Defined.

(** X12.  What [generate_srt] writes is the rendering of the cue list, and
    the text of every cue in it is not empty and neither starts nor ends
    with a whitespace character. *)
Theorem emitted_cue_texts_are_stripped :
  forall (A : Arith) (all_segments : list seg_info_t),
    generate_srt all_segments = flat_map render_cue (reassemble all_segments) /\
    Forall (fun c => cue_text c <> [] /\
                     (forall x r, cue_text c = x :: r -> isspace x = false) /\
                     (forall r x, cue_text c = r ++ [x] -> isspace x = false))
           (reassemble all_segments).
Proof.
  intros A results. split; [apply written_text_is_rendering|].
  eapply List.Forall_impl; [|apply reassemble_from_origin].
  intros c (r & e & _ & _ & Hk & _ & _ & ->). split; [|split].
  - unfold kept, truthy in Hk. destruct (strip (text e)); [discriminate|congruence].
  - apply SrtMore.strip_head.
  - apply SrtMore.strip_last.
Qed.

(** X9.  For every time from 0 up to 2^53 ms, where Python's [//] and
    [%] on doubles are exact, so at 100 hours and beyond as well, the stamp
    is the hours in at least two digits followed by exactly two minute
    digits, two second digits and three millisecond digits, all computed
    from the time rounded down to a whole millisecond; a fraction of a
    millisecond never changes the stamp.  On binary64, 360000000.75 ms is
    stamped [100:00:00,000] and 3723004.9 ms [01:02:03,004]. *)
Theorem srt_time_of_nonnegative_time :
  (forall ms : Q,
      (0 <= ms)%Q -> (ms < 9007199254740992)%Q ->
      let t := Qfloor ms in
      Srt.milliseconds_to_srt_time ms
      = format_0d 2 (t / 3600000)
        ++ [58%N; digit ((t / 60000) mod 60 / 10); digit ((t / 60000) mod 60 mod 10);
            58%N;
            digit ((t / 1000) mod 60 / 10); digit ((t / 1000) mod 60 mod 10); 44%N;
            digit (t mod 1000 / 100); digit (t mod 1000 / 10 mod 10);
            digit (t mod 1000 mod 10)] /\
      (2 <= length (format_0d 2 (t / 3600000)))%nat /\
      Srt.milliseconds_to_srt_time ms
      = Srt.milliseconds_to_srt_time (inject_Z (Qfloor ms))) /\
  milliseconds_to_srt_time (A := binary64) 360000000.75%float = str "100:00:00,000" /\
  milliseconds_to_srt_time (A := binary64) 3723004.9%float = str "01:02:03,004".
Proof.
  split; [|split; vm_compute; reflexivity].
  intros ms Hlo Hhi t. split; [apply SrtMore.srt_time_general|]. split.
  - assert (Ht : (0 <= t / 3600000)%Z).
    { apply Z.div_pos; [|lia]. change 0%Z with (Qfloor 0).
      apply Qfloor_resp_le. exact Hlo. }
    unfold format_0d. apply Z.ltb_ge in Ht. rewrite Ht.
    rewrite length_app, repeat_length. lia.
  - rewrite (SrtMore.srt_time_general ms),
      (SrtMore.srt_time_general (inject_Z (Qfloor ms))).
    cbv zeta. rewrite Qfloor_Z. reflexivity.
Qed.

Lemma srt_time_of_nonnegative_time_witness :
  Srt.milliseconds_to_srt_time (7200000001 # 2)
  = Srt.milliseconds_to_srt_time (inject_Z (Qfloor (7200000001 # 2))).
Proof.
  destruct srt_time_of_nonnegative_time as (Hall & _).
  apply (Hall (7200000001 # 2)%Q); [discriminate|reflexivity].
Defined.

End CodeClaims.
